(** * node-ffmetadata: the argument builder, the ini decoder and the write
    pipeline of [src/index.ts], embedded in Rocq.

    Strings are [string] (a JavaScript string restricted to one-byte code
    units), arrays are lists, the object [stream.data] that the decoder
    uses as a dictionary is a [gmap string string] of its own properties
    (the name [__proto__], which a plain object does not store, is handled
    apart), and the metadata object handed to [write] is an association
    list in the order in which [Object.keys] enumerates it. Exceptions
    that leave a handler are recorded, in the decoder's state or in the
    trace of effects; what the host does with them is not modelled. *)

From Stdlib Require Import ZArith Ascii DecimalString.
From stdpp Require Import base option list strings gmap.

Local Open Scope Z_scope.

(** ** JavaScript string primitives used by the source *)

Module JsString.

(** [s.indexOf(pat)]: position of the first occurrence, [-1] when there is
    none. *)
Fixpoint indexOf (pat s : string) : Z :=
  if String.prefix pat s then 0
  else match s with
       | EmptyString => -1
       | String _ s' =>
           let i := indexOf pat s' in
           if i =? -1 then -1 else 1 + i
       end.

(** A relative index of [slice]: negative values count from the end, and
    the result is clamped to [0 .. len]. *)
Definition clamp (len i : Z) : Z :=
  if i <? 0 then Z.max (len + i) 0 else Z.min i len.

(** [s.slice(start, end)]; [None] stands for an omitted [end]. *)
Definition slice (s : string) (start : Z) (end_ : option Z) : string :=
  let len := Z.of_nat (String.length s) in
  let from := clamp len start in
  let to := match end_ with
            | None => len
            | Some e => clamp len e
            end in
  String.substring (Z.to_nat from) (Z.to_nat (Z.max (to - from) 0)) s.

(** [String.drop n s]: the suffix after the first [n] characters. *)
Fixpoint drop (n : nat) (s : string) : string :=
  match n, s with
  | O, _ => s
  | S _, EmptyString => EmptyString
  | S n', String _ s' => drop n' s'
  end.

(** [s.replace(pat, rep)] with a string pattern: only the first
    occurrence of [pat] is replaced ([rep] holds no [$] pattern in the
    source). *)
Fixpoint replace (pat rep s : string) : string :=
  if String.prefix pat s then rep +:+ drop (String.length pat) s
  else match s with
       | EmptyString => EmptyString
       | String c s' => String c (replace pat rep s')
       end.

(** [Boolean(s)] on a string: only the empty string is falsy. *)
Definition Boolean (s : string) : bool :=
  match s with
  | EmptyString => false
  | String _ _ => true
  end.

(** String conversion of a value that may be [undefined]. *)
Definition toString (v : option string) : string :=
  match v with
  | Some s => s
  | None => "undefined"
  end.

(** [String(n)] for an array index. *)
Definition ofNat (n : nat) : string :=
  NilEmpty.string_of_uint (Nat.to_uint n).

(** Does the character [c] occur in [s]? *)
Fixpoint occurs (c : ascii) (s : string) : bool :=
  match s with
  | EmptyString => false
  | String d s' => if Ascii.eqb d c then true else occurs c s'
  end.

End JsString.

Definition backslash : string := String (ascii_of_nat 92) EmptyString.
Definition newline : string := String (ascii_of_nat 10) EmptyString.

(** ** Parse ini *)

Definition isNotComment (data : string) : bool :=
  negb (String.eqb (JsString.slice data 0 (Some 1)) ";").

(** [escapeini] and [unescapeini] return their argument. *)
Definition escapeini (data : string) : string := data.

Definition unescapeini (data : string) : string := data.

(** The decoder's state: the own properties of the object [stream.data],
    the variable [key], which is [undefined] ([None]) until the first key
    line, and whether a [TypeError] has left [parseLine]. *)
Record ini := Ini {
  ini_data : gmap string string;
  ini_key : option string;
  ini_thrown : bool
}.

Definition ini_init : ini := Ini ∅ None false.

(** [stream.data] is a plain object ([{}]). Under the name [__proto__] it
    has the accessor inherited from [Object.prototype]: reading it gives
    the prototype object, and assigning a string to it stores nothing. *)
Definition is_proto (k : string) : bool := String.eqb k "__proto__".

(** [obj[k] = v] for a string [v]. *)
Definition obj_set (k v : string) (obj : gmap string string) : gmap string string :=
  if is_proto k then obj else <[k := v]> obj.

(** [parseLine]. Indexing [stream.data] with an [undefined] key uses the
    property name ["undefined"], and [+=] on a missing property
    concatenates the string ["undefined"] (the decoder never reads a name
    that [Object.prototype] defines as missing: see [key_stored]). With
    [__proto__] as the current key, [+=] has the prototype object on its
    left and stores nothing, and the next statement calls [.replace] on
    that object, which is not a function: a [TypeError] leaves the
    handler. *)
Definition parseLine (st : ini) (data : string) : ini :=
  let data := unescapeini data in
  let index := JsString.indexOf "=" data in
  if index =? -1 then
    let k := JsString.toString (ini_key st) in
    if is_proto k then Ini (ini_data st) (ini_key st) true
    else
      let appended :=
        JsString.toString (ini_data st !! k) +:+ JsString.slice data (index + 1) None in
      Ini (obj_set k (JsString.replace backslash newline appended) (ini_data st))
          (ini_key st) (ini_thrown st)
  else
    let key := JsString.slice data 0 (Some index) in
    Ini (obj_set key (JsString.slice data (index + 1) None) (ini_data st))
        (Some key) (ini_thrown st).

(** The combined stream after [split()]: [filter(Boolean)], then
    [filter(isNotComment)], then [through(parseLine)], over the lines that
    are delivered to it. *)
Definition parseini_feed (st : ini) (lines : list string) : ini :=
  foldl parseLine st
    (List.filter isNotComment (List.filter JsString.Boolean lines)).

Definition parseini (lines : list string) : gmap string string :=
  ini_data (parseini_feed ini_init lines).

(** The decoder's invariant: once a key other than [__proto__] has been
    seen, [stream.data] holds a value for it; and [__proto__] is never an
    own property. *)
Definition key_stored (st : ini) : Prop :=
  (∀ k, ini_key st = Some k → is_proto k = false → is_Some (ini_data st !! k)) ∧
  ini_data st !! "__proto__" = None.

(** ** Options and metadata records *)

(** [OptionsInterface]; an absent property is [None]. [coverPath] is read
    by [getReadArgs] although the interface does not declare it. *)
Record OptionsInterface := {
  attachments : option (list string);
  id3v1 : option bool;
  id3v2_3 : option bool;
  dryRun : option bool;
  coverPath : option string
}.

Definition no_options : OptionsInterface :=
  {| attachments := None; id3v1 := None; id3v2_3 := None;
     dryRun := None; coverPath := None |}.

(** The [options] argument after the callback shuffle: [getAttachments]
    also accepts a bare array of attachment paths. *)
Inductive options :=
  | OptionsArray (els : list string)
  | OptionsObject (o : OptionsInterface).

(** [if (options[name])] for a boolean property; an array has none. *)
Definition flag (f : OptionsInterface → option bool) (opts : options) : bool :=
  match opts with
  | OptionsArray _ => false
  | OptionsObject o => default false (f o)
  end.

(** [MetadataInterface] as [read] and [write] build it: every field is a
    string or [null] ([None]). *)
Record MetadataInterface := {
  album : option string;
  artist : option string;
  date : option string;
  disk : option string;
  label : option string;
  title : option string;
  track : option string
}.

(** [v || null] for a property that is a string or [undefined]. *)
Definition or_null (v : option string) : option string :=
  match v with
  | Some s => if JsString.Boolean s then Some s else None
  | None => None
  end.

(** The record literal [{album: o.album || null, ...}] over an object [o]
    given by its property lookup. *)
Definition convenience (get : string → option string) : MetadataInterface :=
  {| album := or_null (get "album");
     artist := or_null (get "artist");
     date := or_null (get "date");
     disk := or_null (get "disk");
     label := or_null (get "label");
     title := or_null (get "title");
     track := or_null (get "track") |}.

(** The metadata object passed to [write]: its own properties in
    [Object.keys] order. *)
Definition metadata := list (string * string).

Definition entry (data : metadata) (name : string) : option string :=
  snd <$> List.find (λ kv, String.eqb (fst kv) name) data.

(** ** Child process helpers *)

Definition getReadArgs (src : string) (opts : options) : list string :=
  match opts with
  | OptionsObject {| coverPath := Some cover |} => ["-i"; src; cover]
  | _ => ["-i"; src; "-f"; "ffmetadata"; "pipe:1"]
  end.

Definition getAttachments (opts : options) : list string :=
  match opts with
  | OptionsArray els => els
  | OptionsObject o => default [] (attachments o)
  end.

(** The body of the [forEach] over the attachments: [inputs] always holds
    an even number of elements, so [inputs.length / 2] is an integer. *)
Definition attach (acc : list string * list string) (el : string)
  : list string * list string :=
  let inputIndex := (length acc.1 / 2)%nat in
  (acc.1 ++ ["-i"; el], acc.2 ++ ["-map"; JsString.ofNat inputIndex +:+ ":0"]).

(** The body of the [forEach] over [Object.keys(data)]. *)
Definition push_metadata (args : list string) (kv : string * string) : list string :=
  args ++ ["-metadata"; escapeini kv.1 +:+ "=" +:+ escapeini kv.2].

Definition getWriteArgs (src dst : string) (data : metadata) (opts : options)
  : list string :=
  let inputs := ["-i"; src] in
  let maps := ["-map"; "0:0"] in
  let args := ["-y"] in
  let '(inputs, maps) := foldl attach (inputs, maps) (getAttachments opts) in
  let args := args ++ inputs ++ maps ++ ["-codec"; "copy"] in
  let args := if flag id3v1 opts then args ++ ["-write_id3v1"; "1"] else args in
  let args := if flag id3v2_3 opts then args ++ ["-id3v2_version"; "3"] else args in
  let args := foldl push_metadata args data in
  args ++ [dst].

(** ** The temp path *)

(** The functions of Node's [path] module that [getTempPath] calls. *)
Class PathModule := {
  path_extname : string → string;
  path_basename : string → string;
  path_dirname : string → string;
  path_join : string → string → string
}.

Definition getTempPath `{PathModule} (src : string) : string :=
  let ext := path_extname src in
  let basename :=
    JsString.slice (path_basename src) 0 (Some (- Z.of_nat (String.length ext))) in
  let newName := basename +:+ ".ffmetadata" +:+ ext in
  let dirname := path_dirname src in
  path_join dirname newName.

(** ** Processes, streams and the file system, as [read] and [write] see them *)

(** Errors that reach [stream.emit("error", _)]. *)
Inductive error :=
  | ChildError (e : string)     (* payload of the child's "error" event *)
  | StderrError (body : string) (* new Error(error.getBody().toString()) *)
  | FsError (e : string).       (* error handed to the callback of fs.rename *)

(** Events emitted on the [through()] stream of a call. *)
Inductive event :=
  | EvError (e : error)
  | EvData (chunk : string)
  | EvEnd
  | EvMetadata (d : gmap string string).

(** Exceptions that leave a handler uncaught: the [TypeError] of calling
    [.toString()] on [undefined], and the error of an "error" event that
    is emitted while nothing listens for it. *)
Inductive exception :=
  | TypeError
  | Unhandled (err : error).

(** What a call does to the outside world, in program order. *)
Inductive effect :=
  | Spawn (args : list string) (detached : bool)
  | Rename (from to : string)
  | Unlink (p : string)
  | Emit (ev : event)
  | Callback (err : option error) (data : option MetadataInterface)
  | Uncaught (e : exception).

(** Events of the child process that the calls subscribe to. The exit code
    of "close" is [null] ([None]) when the child was killed by a signal;
    [stderr] is what [concat()] has collected by then, the empty string
    when nothing was written to standard error. *)
Inductive proc_event :=
  | ProcError (e : string)
  | ProcStdout (chunk : string)
  | ProcClose (code : option Z) (stderr : string).

(** Results of the two [fs] calls; [None] is success. *)
Record FileSystem := {
  fs_rename : string → string → option string;
  fs_unlink : string → option string
}.

(** Property reads on the object that [through()] returns. *)
Class Through := through_prop : string → option string.

(** The [options] parameter as passed: a function there is the callback. *)
Inductive options_arg :=
  | ArgFunction
  | ArgOptions (opts : options).

(** [if (typeof options === "function") { callback = options; options = {}; }];
    the callback is kept as a flag, its invocations are effects. *)
Definition shuffle (a : options_arg) (callback : bool) : options * bool :=
  match a with
  | ArgFunction => (OptionsObject no_options, true)
  | ArgOptions opts => (opts, callback)
  end.

(** What [read] and [write] return. *)
Inductive returned :=
  | Args (args : list string)
  | Rt (rt : MetadataInterface).

(** A call that went past the [dryRun] test: the paths its handlers close
    over and whether listeners were attached for a callback. *)
Record running := {
  run_src : string;
  run_dst : string;
  run_callback : bool
}.

(** *** write *)

(** [error.getBody().toString()]: [getBody()] is [undefined] when nothing
    was collected, and the call of [.toString()] on it throws. *)
Definition getBody_toString (stderr : string) : option string :=
  if JsString.Boolean stderr then Some stderr else None.

(** [stream.emit(ev)] in [write]: listeners exist only with a callback,
    for "metadata" and for "error". An "error" event without a listener
    is thrown by [emit]. *)
Definition write_emit (r : running) (ev : event) : list effect :=
  Emit ev ::
  (if run_callback r then
     match ev with
     | EvMetadata d => [Callback None (Some (convenience (λ k, d !! k)))]
     | EvError err => [Callback (Some err) None]
     | _ => []
     end
   else
     match ev with
     | EvError err => [Uncaught (Unhandled err)]
     | _ => []
     end).

(** [handleError]: the callback of [fs.unlink] ignores its argument. *)
Definition handleError (r : running) (err : error) : list effect :=
  Unlink (run_dst r) :: write_emit r (EvError err).

Definition finish (fs : FileSystem) (r : running) : list effect :=
  Rename (run_dst r) (run_src r) ::
  match fs_rename fs (run_dst r) (run_src r) with
  | Some err => handleError r (FsError err)
  | None => write_emit r EvEnd
  end.

(** The three subscriptions on [proc]. *)
Definition write_on (fs : FileSystem) (r : running) (ev : proc_event) : list effect :=
  match ev with
  | ProcError e => write_emit r (EvError (ChildError e))
  | ProcStdout chunk => write_emit r (EvData chunk)
  | ProcClose code stderr =>
      match code with
      | Some 0 => finish fs r
      | _ =>
          match getBody_toString stderr with
          | Some body => handleError r (StderrError body)
          | None => [Uncaught TypeError]
          end
      end
  end.

(** The synchronous part of [write]: the returned value, the effects so
    far and, unless [dryRun] stopped it, the handlers left behind. *)
Definition write `{PathModule} `{Through} (src : string) (data : metadata)
    (a : options_arg) (callback : bool)
  : returned * list effect * option running :=
  let '(opts, callback) := shuffle a callback in
  let dst := getTempPath src in
  let args := getWriteArgs src dst data opts in
  if flag dryRun opts then (Args args, [], None)
  else
    (Rt (convenience through_prop), [Spawn args false],
     Some {| run_src := src; run_dst := dst; run_callback := callback |}).

(** A whole invocation: the synchronous part, then the child's events. *)
Definition write_run `{PathModule} `{Through} (fs : FileSystem) (src : string)
    (data : metadata) (a : options_arg) (callback : bool) (evs : list proc_event)
  : returned * list effect :=
  let '(ret, effs, r) := write src data a callback in
  (ret, effs ++ match r with
                | Some r => concat (write_on fs r <$> evs)
                | None => []
                end).

(** *** read *)

(** [stream.emit(ev)] in [read]: with a callback, "end" calls it without
    arguments and "error" with the error; without one, an "error" event
    is thrown by [emit]. *)
Definition read_emit (callback : bool) (ev : event) : list effect :=
  Emit ev ::
  (if callback then
     match ev with
     | EvEnd => [Callback None None]
     | EvError err => [Callback (Some err) None]
     | _ => []
     end
   else
     match ev with
     | EvError err => [Uncaught (Unhandled err)]
     | _ => []
     end).

(** The subscriptions of [read]. Standard output is piped into the decoder;
    [output] is the decoder's [data] object when "close" arrives. *)
Definition read_on (callback : bool) (output : gmap string string) (ev : proc_event)
  : list effect :=
  match ev with
  | ProcError e => read_emit callback (EvError (ChildError e))
  | ProcStdout _ => []
  | ProcClose code stderr =>
      match code with
      | Some 0 => read_emit callback (EvMetadata output)
      | _ =>
          match getBody_toString stderr with
          | Some body => read_emit callback (EvError (StderrError body))
          | None => [Uncaught TypeError]
          end
      end
  end.

Definition read `{Through} (src : string) (a : options_arg) (callback : bool)
  : returned * list effect * option bool :=
  let '(opts, callback) := shuffle a callback in
  let args := getReadArgs src opts in
  if flag dryRun opts then (Args args, [], None)
  else (Rt (convenience through_prop), [Spawn args true], Some callback).

(** ** Observations on a trace of effects *)

Definition renames (effs : list effect) : list (string * string) :=
  omap (λ e, match e with Rename a b => Some (a, b) | _ => None end) effs.

Definition unlinks (effs : list effect) : list string :=
  omap (λ e, match e with Unlink p => Some p | _ => None end) effs.

Definition spawns (effs : list effect) : list (list string) :=
  omap (λ e, match e with Spawn args _ => Some args | _ => None end) effs.

(** Errors surfaced on the stream, in order. *)
Definition errors (effs : list effect) : list error :=
  omap (λ e, match e with Emit (EvError err) => Some err | _ => None end) effs.

Definition ended (effs : list effect) : bool :=
  existsb (λ e, match e with Emit EvEnd => true | _ => false end) effs.

Definition callbacks (effs : list effect)
  : list (option error * option MetadataInterface) :=
  omap (λ e, match e with Callback err d => Some (err, d) | _ => None end) effs.

Definition uncaughts (effs : list effect) : list exception :=
  omap (λ e, match e with Uncaught x => Some x | _ => None end) effs.

(** Errors that reach the caller, in order: handed to the callback, or
    thrown because nothing listened for the "error" event. *)
Definition surfaced (effs : list effect) : list error :=
  omap (λ e, match e with
             | Callback (Some err) _ => Some err
             | Uncaught (Unhandled err) => Some err
             | _ => None
             end) effs.

(** The two terminal outcomes of the write pipeline. [Committed]: the temp
    path was renamed over the source, nothing was removed, no error was
    emitted or reached the caller, nothing was thrown and "end" was
    emitted. [RolledBack err]: the temp path was removed, [err] is the one
    error emitted, it is the one error that reached the caller, and "end"
    was not emitted. *)
Definition Committed (src dst : string) (effs : list effect) : Prop :=
  renames effs = [(dst, src)] ∧ unlinks effs = [] ∧ errors effs = [] ∧
  surfaced effs = [] ∧ uncaughts effs = [] ∧ ended effs = true.


(** ** Directives of the argument vector *)

Definition input_directive (file : string) : list string := ["-i"; file].

(** The mapping directive that binds the first stream of input [k]. *)
Definition map_directive (k : nat) : list string :=
  ["-map"; JsString.ofNat k +:+ ":0"].

Definition metadata_directive (kv : string * string) : list string :=
  ["-metadata"; escapeini kv.1 +:+ "=" +:+ escapeini kv.2].

(** ** Readings of the specification, to compare with the code *)

(** The order of write arguments as the specification lists it: each
    input directive immediately followed by its own mapping directive. *)
Definition spec_write_args (src dst : string) (data : metadata) (opts : options)
  : list string :=
  ["-y"] ++ ["-i"; src; "-map"; "0:0"] ++
  concat (imap (λ k el, ["-i"; el; "-map"; JsString.ofNat (S k) +:+ ":0"])
            (getAttachments opts)) ++
  ["-codec"; "copy"] ++
  (if flag id3v1 opts then ["-write_id3v1"; "1"] else []) ++
  (if flag id3v2_3 opts then ["-id3v2_version"; "3"] else []) ++
  concat ((λ kv : string * string,
             ["-metadata"; escapeini kv.1 +:+ "=" +:+ escapeini kv.2]) <$> data) ++
  [dst].

(** Every escaped-newline marker (backslash) turned into a line break. *)
Fixpoint spec_translate_all (s : string) : string :=
  match s with
  | EmptyString => EmptyString
  | String c s' =>
      String (if Ascii.eqb c (ascii_of_nat 92) then ascii_of_nat 10 else c)
             (spec_translate_all s')
  end.

(** ** Concrete collaborators for the examples *)

(** The extension of a file name: from its last dot, unless that dot is
    the first character. *)
Fixpoint from_last_dot (s : string) : string :=
  match s with
  | EmptyString => EmptyString
  | String c s' =>
      match from_last_dot s' with
      | EmptyString => if Ascii.eqb c "." then s else EmptyString
      | e => e
      end
  end.

(** Node's posix [path] functions on plain file names, that is names
    without a directory part, which live in the current directory. *)
Definition plain_path : PathModule :=
  {| path_extname := λ s,
       if String.eqb s ".." then EmptyString
       else match s with
            | EmptyString => EmptyString
            | String _ s' => from_last_dot s'
            end;
     path_basename := λ s, s;
     path_dirname := λ _, ".";
     path_join := λ d n, if String.eqb d "." then n else d +:+ "/" +:+ n |}.

(** A stream fresh from [through()]: it carries stream methods only, none
    of the metadata field names. *)
Definition fresh_through : Through := λ _, None.

(** A file system on which both calls succeed, and one on which every
    rename fails. *)
Definition fs_ok : FileSystem :=
  {| fs_rename := λ _ _, None; fs_unlink := λ _, None |}.


Definition with_options (o : OptionsInterface) : options_arg :=
  ArgOptions (OptionsObject o).

(** ** The executable *)

(** The module-level binding [ffmpeg = spawn.bind(null, cmd)], kept as the
    command [cmd]: at load time [process.env.FFMPEG_PATH || "ffmpeg"]. *)
Definition ffmpeg_default (FFMPEG_PATH : option string) : string :=
  match or_null FFMPEG_PATH with
  | Some p => p
  | None => "ffmpeg"
  end.

(** [setFfmpegPath(path)] rebinds it to [path || "ffmpeg"]. *)
Definition setFfmpegPath (path : string) : string :=
  if JsString.Boolean path then path else "ffmpeg".

(** The command after the module was loaded and [setFfmpegPath] was called
    with each of [paths] in turn. *)
Definition ffmpeg_after (FFMPEG_PATH : option string) (paths : list string) : string :=
  foldl (λ _ path, setFfmpegPath path) (ffmpeg_default FFMPEG_PATH) paths.

(** ** Vocabulary for the decoder and the traces *)

(** The token that [getWriteArgs] pushes after [-metadata]. *)
Definition metadata_token (kv : string * string) : string :=
  escapeini kv.1 +:+ "=" +:+ escapeini kv.2.

(** The lines that reach [parseLine]. *)
Definition effective (lines : list string) : list string :=
  List.filter isNotComment (List.filter JsString.Boolean lines).

(** The key [parseLine] cuts out of a line, if the line holds [=]. *)
Definition line_key (line : string) : option string :=
  let index := JsString.indexOf "=" (unescapeini line) in
  if index =? -1 then None
  else Some (JsString.slice (unescapeini line) 0 (Some index)).

(** A value written over several lines: every line but the last ends in a
    backslash. [k=s0\], [s1\], ..., [last]. *)
Definition multi_line (k s0 : string) (mids : list string) (last : string)
  : list string :=
  (k +:+ "=" +:+ s0 +:+ backslash) :: ((λ s, s +:+ backslash) <$> mids) ++ [last].

(** The segments joined by line breaks. *)
Definition join_lines (s0 : string) (rest : list string) : string :=
  foldl (λ acc s, acc +:+ newline +:+ s) s0 rest.

(** Chunks forwarded as "data" events, in order. *)
Definition datas (effs : list effect) : list string :=
  omap (λ e, match e with Emit (EvData c) => Some c | _ => None end) effs.

(** Payloads of the "metadata" events, in order. *)
Definition metadatas (effs : list effect) : list (gmap string string) :=
  omap (λ e, match e with Emit (EvMetadata d) => Some d | _ => None end) effs.

Definition is_close (ev : proc_event) : bool :=
  match ev with ProcClose _ _ => true | _ => false end.

Definition is_zero_close (ev : proc_event) : bool :=
  match ev with ProcClose (Some 0) _ => true | _ => false end.

(** A "close" that is no success and comes with no standard-error text. *)
Definition is_silent_close (ev : proc_event) : bool :=
  match ev with
  | ProcClose (Some 0) _ => false
  | ProcClose _ stderr => negb (JsString.Boolean stderr)
  | _ => false
  end.

(** How often a [TypeError] left a handler. *)
Definition type_errors (effs : list effect) : nat :=
  length (List.filter (λ e, match e with Uncaught TypeError => true | _ => false end)
            effs).

(** Line breaks: line feed and carriage return, at which [split()] cuts. *)
Definition has_line_break (s : string) : bool :=
  JsString.occurs (ascii_of_nat 10) s || JsString.occurs (ascii_of_nat 13) s.

Definition stdout_chunks (evs : list proc_event) : list string :=
  omap (λ ev, match ev with ProcStdout c => Some c | _ => None end) evs.

(** *** A whole read *)

(** One event of the child during a read. Standard output goes through
    [split()] into the decoder, so the state keeps the chunks received so
    far next to the effects; [split] (the [split] package) gives the lines
    cut out of them, and [output.data] is what the decoder made of these
    lines. An exception of the decoder is no part of this trace: it shows
    in [ini_thrown] of the decode. *)
Definition read_step (split : list string → list string) (callback : bool)
    (st : list string * list effect) (ev : proc_event)
  : list string * list effect :=
  match ev with
  | ProcStdout chunk => (st.1 ++ [chunk], st.2)
  | _ => (st.1, st.2 ++ read_on callback (parseini (split st.1)) ev)
  end.

Definition read_run `{Through} (split : list string → list string)
    (src : string) (a : options_arg) (callback : bool) (evs : list proc_event)
  : returned * list effect :=
  let '(ret, effs, r) := read src a callback in
  (ret, match r with
        | Some callback => (foldl (read_step split callback) ([], effs) evs).2
        | None => effs
        end).

(** * Properties *)

(** ** Strings *)

Module JsStringFacts.
Import JsString.

Lemma append_nil s : "" +:+ s = s.
Proof. reflexivity. Qed.

Lemma append_cons c k s : String c k +:+ s = String c (k +:+ s).
Proof. reflexivity. Qed.

Lemma prefix_char c d s :
  String.prefix (String c EmptyString) (String d s) = Ascii.eqb d c.
Proof.
  simpl. destruct (ascii_dec c d) as [->|Hne].
  - rewrite Ascii.eqb_refl. by destruct s.
  - symmetry. apply Ascii.eqb_neq. congruence.
Qed.

Lemma indexOf_absent c s :
  occurs c s = false → indexOf (String c EmptyString) s = -1.
Proof.
  induction s as [|d s IH]; [done|].
  cbn [occurs]. destruct (Ascii.eqb d c) eqn:E; [done|]. intros Hs.
  cbn [indexOf]. rewrite prefix_char, E, (IH Hs). done.
Qed.

Lemma indexOf_nonneg_or_absent pat s : indexOf pat s = -1 ∨ 0 ≤ indexOf pat s.
Proof.
  induction s as [|d s IH]; cbn [indexOf].
  - destruct (String.prefix pat ""); lia.
  - destruct (String.prefix pat (String d s)); [lia|].
    destruct (Z.eqb_spec (indexOf pat s) (-1)); lia.
Qed.

Lemma indexOf_first c k v :
  occurs c k = false →
  indexOf (String c EmptyString) (k +:+ String c v) = Z.of_nat (String.length k).
Proof.
  induction k as [|d k IH]; intros Hk.
  - rewrite append_nil. cbn [indexOf]. by rewrite prefix_char, Ascii.eqb_refl.
  - cbn [occurs] in Hk. destruct (Ascii.eqb d c) eqn:E; [done|].
    rewrite append_cons. cbn [indexOf]. rewrite prefix_char, E, (IH Hk).
    destruct (Z.eqb_spec (Z.of_nat (String.length k)) (-1)); [lia|].
    cbn [String.length]. lia.
Qed.

Lemma indexOf_present c s :
  occurs c s = true → indexOf (String c EmptyString) s ≠ -1.
Proof.
  induction s as [|d s IH]; [done|].
  cbn [occurs indexOf]. rewrite prefix_char.
  destruct (Ascii.eqb d c); [done|]. intros Hs.
  destruct (Z.eqb_spec (indexOf (String c "") s) (-1)) as [E|E]; [by apply IH in Hs|].
  destruct (indexOf_nonneg_or_absent (String c "") s); lia.
Qed.

Lemma substring_all s : String.substring 0 (String.length s) s = s.
Proof. induction s as [|c s IH]; [done|]. cbn. by rewrite IH. Qed.

Lemma substring_prefix k r :
  String.substring 0 (String.length k) (k +:+ r) = k.
Proof.
  induction k as [|c k IH].
  - rewrite append_nil. by destruct r.
  - rewrite append_cons. cbn. by rewrite IH.
Qed.

Lemma substring_skip k n r :
  String.substring (String.length k) n (k +:+ r) = String.substring 0 n r.
Proof. induction k as [|c k IH]; [done|]. rewrite append_cons. cbn. apply IH. Qed.

Lemma length_append k r :
  String.length (k +:+ r) = (String.length k + String.length r)%nat.
Proof.
  induction k as [|c k IH]; [done|]. rewrite append_cons. cbn. by rewrite IH.
Qed.

Lemma slice_all s : slice s 0 None = s.
Proof.
  unfold slice, clamp. cbn [Z.ltb Z.compare].
  rewrite Z.min_l by lia. rewrite Z.sub_0_r, Z.max_l by lia.
  rewrite Nat2Z.id. apply substring_all.
Qed.

Lemma slice_prefix k r :
  slice (k +:+ r) 0 (Some (Z.of_nat (String.length k))) = k.
Proof.
  unfold slice, clamp. rewrite length_append.
  destruct (Z.ltb_spec (Z.of_nat (String.length k)) 0); [lia|].
  cbn [Z.ltb Z.compare].
  rewrite !Z.min_l by lia. rewrite Z.sub_0_r, Z.max_l by lia.
  rewrite Nat2Z.id. apply substring_prefix.
Qed.

Lemma slice_suffix k r :
  slice (k +:+ r) (Z.of_nat (String.length k)) None = r.
Proof.
  unfold slice, clamp. rewrite length_append.
  destruct (Z.ltb_spec (Z.of_nat (String.length k)) 0); [lia|].
  rewrite Z.min_l by lia. rewrite Nat2Z.id.
  replace (Z.to_nat _) with (String.length r) by lia.
  rewrite substring_skip. apply substring_all.
Qed.

(** Cutting a line at its first [c]: the two slices of [parseLine]. *)
Lemma slice_key c k v :
  slice (k +:+ String c v) 0 (Some (Z.of_nat (String.length k))) = k.
Proof. apply slice_prefix. Qed.

Lemma slice_value c k v :
  slice (k +:+ String c v) (Z.of_nat (String.length k) + 1) None = v.
Proof.
  replace (k +:+ String c v) with ((k +:+ String c "") +:+ v).
  - replace (Z.of_nat (String.length k) + 1)
      with (Z.of_nat (String.length (k +:+ String c ""))).
    + apply slice_suffix.
    + rewrite length_append. cbn. lia.
  - clear. induction k as [|d k IH]; [done|]. by rewrite !append_cons, IH.
Qed.

Lemma replace_absent c rep s :
  occurs c s = false → replace (String c EmptyString) rep s = s.
Proof.
  induction s as [|d s IH]; [done|].
  cbn [occurs]. destruct (Ascii.eqb d c) eqn:E; [done|]. intros Hs.
  cbn [replace]. rewrite prefix_char, E. by rewrite IH.
Qed.

Lemma replace_first c rep pre post :
  occurs c pre = false →
  replace (String c EmptyString) rep (pre +:+ String c post) = pre +:+ rep +:+ post.
Proof.
  induction pre as [|d pre IH]; intros Hp.
  - rewrite append_nil. cbn [replace]. by rewrite prefix_char, Ascii.eqb_refl.
  - cbn [occurs] in Hp. destruct (Ascii.eqb d c) eqn:E; [done|].
    rewrite append_cons. cbn [replace]. rewrite prefix_char, E. by rewrite IH.
Qed.

Lemma occurs_append c k r : occurs c (k +:+ r) = occurs c k || occurs c r.
Proof.
  induction k as [|d k IH]; [done|].
  rewrite append_cons. cbn. by destruct (Ascii.eqb d c).
Qed.

End JsStringFacts.

(** ** The decoder *)

Module Decoder.
Import JsString JsStringFacts.

Lemma feed_app st l1 l2 :
  parseini_feed st (l1 ++ l2) = parseini_feed (parseini_feed st l1) l2.
Proof. unfold parseini_feed. by rewrite !List.filter_app, foldl_app. Qed.

Lemma feed_skip st line :
  Boolean line = false ∨ isNotComment line = false → parseini_feed st [line] = st.
Proof.
  unfold parseini_feed. cbn [List.filter].
  destruct (Boolean line); cbn [List.filter]; [|done].
  destruct (isNotComment line); [|done]. by intros [?|?].
Qed.

Lemma feed_line st line :
  Boolean line = true → isNotComment line = true →
  parseini_feed st [line] = parseLine st line.
Proof.
  intros Hb Hc. unfold parseini_feed. cbn [List.filter].
  rewrite Hb. cbn [List.filter]. by rewrite Hc.
Qed.

Lemma slice_first_char c s : slice (String c s) 0 (Some 1) = String c "".
Proof.
  unfold slice, clamp. cbn [String.length Z.ltb Z.compare].
  rewrite Z.min_l by lia. rewrite Z.min_l by lia.
  change (Z.to_nat (Z.max (1 - 0) 0)) with 1%nat. cbn. by destruct s.
Qed.

Lemma isNotComment_cons c s : isNotComment (String c s) = negb (Ascii.eqb c ";").
Proof.
  unfold isNotComment. rewrite slice_first_char. cbn.
  by destruct (Ascii.eqb c ";").
Qed.

(** A comment is a line that starts with [;], nothing else. *)
Lemma isNotComment_false line :
  isNotComment line = false ↔ ∃ rest, line = ";" +:+ rest.
Proof.
  destruct line as [|c s].
  - split; [done|]. by intros [rest ?].
  - rewrite isNotComment_cons. split.
    + intros Hc. apply negb_false_iff, Ascii.eqb_eq in Hc. subst. by exists s.
    + intros [rest [= -> _]]. done.
Qed.

Lemma isNotComment_true line :
  (∀ rest, line ≠ ";" +:+ rest) → isNotComment line = true.
Proof.
  intros Hnc. destruct (isNotComment line) eqn:E; [done|].
  apply isNotComment_false in E as [rest ->]. by destruct (Hnc rest).
Qed.

(** The lines that are skipped, told by their text. *)
Lemma feed_skipped st line :
  line = "" ∨ (∃ rest, line = ";" +:+ rest) → parseini_feed st [line] = st.
Proof.
  intros [->|Hc]; apply feed_skip; [by left|right]. by apply isNotComment_false.
Qed.

Lemma is_proto_false k : k ≠ "__proto__" → is_proto k = false.
Proof. intros Hk. by apply String.eqb_neq. Qed.

Lemma is_proto_true k : is_proto k = true → k = "__proto__".
Proof. apply String.eqb_eq. Qed.

Lemma obj_set_insert k v (obj : gmap string string) :
  k ≠ "__proto__" → obj_set k v obj = <[k := v]> obj.
Proof. intros Hk. unfold obj_set. by rewrite is_proto_false. Qed.

(** A key line: cut at the first [=]. *)
Lemma parseLine_key_set st k v :
  occurs "=" k = false →
  parseLine st (k +:+ "=" +:+ v)
    = Ini (obj_set k v (ini_data st)) (Some k) (ini_thrown st).
Proof.
  intros Hk. unfold parseLine, unescapeini.
  change ("=" +:+ v) with (String "=" v).
  rewrite (indexOf_first "=" k v Hk).
  destruct (Z.eqb_spec (Z.of_nat (String.length k)) (-1)); [lia|].
  by rewrite slice_key, slice_value.
Qed.

Lemma parseLine_key st k v :
  occurs "=" k = false → k ≠ "__proto__" →
  parseLine st (k +:+ "=" +:+ v)
    = Ini (<[k := v]> (ini_data st)) (Some k) (ini_thrown st).
Proof. intros Hk Hp. by rewrite parseLine_key_set, obj_set_insert. Qed.

(** A line without [=]: appended under the current key, unless that key
    is [__proto__], where the handler throws. *)
Lemma parseLine_continuation st line :
  occurs "=" line = false →
  parseLine st line =
    let k := toString (ini_key st) in
    if is_proto k then Ini (ini_data st) (ini_key st) true
    else
      Ini (obj_set k (replace backslash newline (toString (ini_data st !! k) +:+ line))
             (ini_data st))
          (ini_key st) (ini_thrown st).
Proof.
  intros Hl. unfold parseLine, unescapeini.
  rewrite (indexOf_absent "=" line Hl). cbn [Z.eqb Z.add Z.opp Pos.eqb].
  replace (-1 + 1) with 0 by done. by rewrite slice_all.
Qed.

Lemma line_with_eq_not_blank k v : Boolean (k +:+ "=" +:+ v) = true.
Proof. by destruct k. Qed.

Lemma obj_set_proto k v (obj : gmap string string) :
  obj !! "__proto__" = None → obj_set k v obj !! "__proto__" = None.
Proof.
  intros Hp. unfold obj_set. destruct (is_proto k) eqn:E; [done|].
  rewrite lookup_insert_ne; [done|]. intros ->. done.
Qed.

Lemma obj_set_lookup k v (obj : gmap string string) :
  is_proto k = false → is_Some (obj_set k v obj !! k).
Proof. intros Hp. unfold obj_set. rewrite Hp, lookup_insert_eq. eauto. Qed.

Lemma parseLine_key_stored st line : key_stored st → key_stored (parseLine st line).
Proof.
  intros [Hst Hproto]. unfold parseLine.
  destruct (indexOf "=" (unescapeini line) =? -1).
  - destruct (is_proto (toString (ini_key st))) eqn:E; [by split|].
    split; cbn [ini_data ini_key]; [|by apply obj_set_proto].
    intros k Hk Hp. rewrite Hk. cbn [toString]. by apply obj_set_lookup.
  - split; cbn [ini_data ini_key]; [|by apply obj_set_proto].
    intros k [= <-] Hp. by apply obj_set_lookup.
Qed.

Lemma feed_key_stored st lines : key_stored st → key_stored (parseini_feed st lines).
Proof.
  unfold parseini_feed.
  generalize (List.filter isNotComment (List.filter Boolean lines)). intros ls.
  revert st. induction ls as [|l ls IH]; intros st Hst; [done|].
  cbn. apply IH. by apply parseLine_key_stored.
Qed.

Lemma init_key_stored : key_stored ini_init.
Proof. by split. Qed.

End Decoder.




(** C6, amended. While no exception has been raised, a non-blank,
    non-comment line without [=] that arrives after a key [k] other than
    [__proto__] has been seen is appended whole to the value [v] stored
    for [k]; then the first backslash of the joined text [v ++ line], if
    there is one, is replaced by a line break, and every later backslash
    stays as it is. The current key does not change and no exception is
    raised. *)
Theorem parseini_continuation (lines : list string) (line k : string) :
  ini_key (parseini_feed ini_init lines) = Some k →
  k ≠ "__proto__" →
  ini_thrown (parseini_feed ini_init lines) = false →
  line ≠ "" → (∀ rest, line ≠ ";" +:+ rest) →
  JsString.occurs "=" line = false →
  ∃ v stored,
    parseini lines !! k = Some v ∧
    parseini (lines ++ [line]) = <[k := stored]> (parseini lines) ∧
    ini_key (parseini_feed ini_init (lines ++ [line])) = Some k ∧
    ini_thrown (parseini_feed ini_init (lines ++ [line])) = false ∧
    stored = JsString.replace backslash newline (v +:+ line) ∧
    (JsString.occurs (ascii_of_nat 92) (v +:+ line) = false → stored = v +:+ line) ∧
    (∀ pre post,
       v +:+ line = pre +:+ backslash +:+ post →
       JsString.occurs (ascii_of_nat 92) pre = false →
       stored = pre +:+ newline +:+ post).
Proof.
  intros Hkey Hp Ht Hb Hc Hl. unfold parseini. rewrite Decoder.feed_app.
  set (st := parseini_feed ini_init lines) in *.
  destruct (Decoder.feed_key_stored ini_init lines Decoder.init_key_stored)
    as [Hstored _].
  destruct (Hstored k Hkey (Decoder.is_proto_false k Hp)) as [v Hv].
  fold st in Hv. exists v, (JsString.replace backslash newline (v +:+ line)).
  rewrite Decoder.feed_line, Decoder.parseLine_continuation;
    [|done|by destruct line|by apply Decoder.isNotComment_true].
  rewrite Hkey. cbn [JsString.toString]. rewrite (Decoder.is_proto_false k Hp).
  rewrite Decoder.obj_set_insert by done. cbn [ini_data ini_key ini_thrown].
  rewrite Hv. cbn [JsString.toString]. repeat split; [done|..].
  - intros Hno. by apply JsStringFacts.replace_absent.
  - intros pre post -> Hpre. by apply JsStringFacts.replace_first.
Qed.

Lemma parseini_continuation_witness :
  parseini ["title=one" +:+ backslash; "two"] !! "title"
  = Some ("one" +:+ newline +:+ "two").
Proof.
  destruct (parseini_continuation ["title=one" +:+ backslash] "two" "title")
    as (v & stored & Hv & Hmap & _ & _ & Hstored & _);
    [reflexivity|discriminate|reflexivity|discriminate|intros rest; discriminate
    |reflexivity|].
  change (parseini (["title=one" +:+ backslash] ++ ["two"]) !! "title"
          = Some ("one" +:+ newline +:+ "two")).
  rewrite Hmap, lookup_insert_eq, Hstored. f_equal.
  assert (v = "one" +:+ backslash) as -> by (vm_compute in Hv |- *; congruence).
  reflexivity.
Defined.

(** C6 as stated fails: a continuation line holding two backslashes after
    the key line [k=v] keeps its second backslash, so the stored value is
    not the old value followed by the content with every marker turned
    into a line break. Under the key [__proto__] nothing is appended at
    all: the handler throws. *)
Lemma parseini_continuation_second_marker_kept :
  let line := "a" +:+ backslash +:+ "b" +:+ backslash +:+ "c" in
  parseini ["k=v"; line] !! "k"
    = Some ("va" +:+ newline +:+ "b" +:+ backslash +:+ "c") ∧
  parseini ["k=v"; line] !! "k" ≠ Some ("v" +:+ spec_translate_all line) ∧
  parseini ["k=v"; line] !! "k" ≠ Some (spec_translate_all ("v" +:+ line)) ∧
  parseini_feed ini_init ["__proto__=x"; "more"] = Ini ∅ (Some "__proto__") true.
Proof. vm_compute. repeat split; congruence. Qed.

(** C7, at the failing input: a continuation line before any key is not
    rejected; it is stored under the property name [undefined], after the
    text [undefined], and decoding goes on with the lines that follow. *)
Theorem parseini_continuation_before_key :
  parseini [";FFMETADATA1"; "oops"] = {[ "undefined" := "undefinedoops" ]} ∧
  parseini [";FFMETADATA1"; "oops"; "title=Test"]
    = <[ "title" := "Test" ]> {[ "undefined" := "undefinedoops" ]}.
Proof. split; reflexivity. Qed.

(** C8, at the failing inputs: the encoder returns every string unchanged,
    so [=], a line break and a leading [;] reach the argument vector as
    they are. *)
Theorem escapeini_is_identity :
  (∀ s, escapeini s = s) ∧
  escapeini "a=b" = "a=b" ∧
  escapeini ("a" +:+ newline +:+ "b") = "a" +:+ newline +:+ "b" ∧
  escapeini ";a" = ";a" ∧
  getWriteArgs "s.mp3" "s.ffmetadata.mp3" [("a=b", "c")] (OptionsObject no_options)
    = ["-y"; "-i"; "s.mp3"; "-map"; "0:0"; "-codec"; "copy";
       "-metadata"; "a=b=c"; "s.ffmetadata.mp3"].
Proof. repeat split. Qed.

(** ** The argument builder *)

Module Builder.

Lemma foldl_attach atts : ∀ inputs maps,
  foldl attach (inputs, maps) atts =
    (inputs ++ concat (input_directive <$> atts),
     maps ++ concat (map_directive <$> seq (length inputs / 2) (length atts))).
Proof.
  induction atts as [|el atts IH]; intros inputs maps.
  - cbn. by rewrite !app_nil_r.
  - cbn [foldl]. unfold attach at 2. cbn [fst snd]. rewrite IH.
    rewrite length_app. cbn [length].
    replace ((length inputs + 2) / 2)%nat with (S (length inputs / 2))%nat.
    + cbn [fmap list_fmap concat seq length]. by rewrite <- !app_assoc.
    + replace (length inputs + 2)%nat with (length inputs + 1 * 2)%nat by lia.
      rewrite Nat.div_add by lia. lia.
Qed.

Lemma foldl_push_metadata data : ∀ args,
  foldl push_metadata args data = args ++ concat (metadata_directive <$> data).
Proof.
  induction data as [|kv data IH]; intros args.
  - cbn. by rewrite app_nil_r.
  - cbn [foldl]. rewrite IH. unfold push_metadata.
    cbn [fmap list_fmap concat]. by rewrite <- app_assoc.
Qed.

(** The whole vector in closed form: all input directives, then all
    mapping directives, then the options, the metadata and the output. *)
Lemma getWriteArgs_closed src dst data opts :
  getWriteArgs src dst data opts =
    ["-y"] ++
    concat (input_directive <$> src :: getAttachments opts) ++
    concat (map_directive <$> seq 0 (S (length (getAttachments opts)))) ++
    ["-codec"; "copy"] ++
    (if flag id3v1 opts then ["-write_id3v1"; "1"] else []) ++
    (if flag id3v2_3 opts then ["-id3v2_version"; "3"] else []) ++
    concat (metadata_directive <$> data) ++
    [dst].
Proof.
  unfold getWriteArgs. rewrite foldl_attach. rewrite foldl_push_metadata.
  cbn [length Nat.div Nat.divmod fst fmap list_fmap concat seq].
  change (input_directive src) with ["-i"; src].
  change (map_directive 0) with ["-map"; "0:0"].
  destruct (flag id3v1 opts), (flag id3v2_3 opts);
    repeat (rewrite <- app_assoc || cbn [app]); reflexivity.
Qed.

(** Positions inside a run of two-element directives. *)
Lemma length_concat_pairs {A} (f : A → list string) (l : list A) :
  (∀ a, length (f a) = 2%nat) → length (concat (f <$> l)) = (2 * length l)%nat.
Proof.
  intros Hf. induction l as [|a l IH]; [done|].
  cbn [fmap list_fmap concat]. rewrite length_app, Hf.
  change (list_fmap A (list string) f l) with (f <$> l). rewrite IH. cbn. lia.
Qed.

Lemma lookup_concat_pairs {A} (f : A → list string) (l : list A) :
  (∀ a, length (f a) = 2%nat) →
  ∀ k x j, l !! k = Some x → (j < 2)%nat →
    concat (f <$> l) !! (2 * k + j)%nat = f x !! j.
Proof.
  intros Hf. induction l as [|a l IH]; intros k x j Hk Hj; [done|].
  cbn [fmap list_fmap concat]. destruct k as [|k].
  - cbn in Hk. injection Hk as ->. rewrite lookup_app_l by (rewrite Hf; lia).
    reflexivity.
  - cbn in Hk. rewrite lookup_app_r by (rewrite Hf; lia). rewrite Hf.
    replace (2 * S k + j - 2)%nat with (2 * k + j)%nat by lia.
    by apply IH.
Qed.

Lemma slice_stem stem ext :
  ext ≠ EmptyString →
  JsString.slice (stem +:+ ext) 0 (Some (- Z.of_nat (String.length ext))) = stem.
Proof.
  intros Hext. unfold JsString.slice, JsString.clamp.
  rewrite JsStringFacts.length_append.
  assert (0 < String.length ext)%nat by (destruct ext; [done|cbn; lia]).
  destruct (Z.ltb_spec (- Z.of_nat (String.length ext)) 0); [|lia].
  cbn [Z.ltb Z.compare]. rewrite Z.min_l by lia. rewrite Z.sub_0_r.
  rewrite !Z.max_l by lia. change (Z.to_nat 0) with 0%nat.
  replace (Z.to_nat _) with (String.length stem) by lia.
  apply JsStringFacts.substring_prefix.
Qed.

(** [slice(0, -0)] is [slice(0, 0)]: without an extension nothing of the
    base name is kept. *)
Lemma slice_no_extension s :
  JsString.slice s 0 (Some (- Z.of_nat (String.length ""))) = "".
Proof.
  unfold JsString.slice, JsString.clamp. cbn [String.length Z.of_nat Z.opp Z.ltb Z.compare].
  rewrite !Z.min_l by lia. cbn. by destruct s.
Qed.

Lemma getTempPath_no_extension `{PathModule} src :
  path_extname src = "" →
  getTempPath src = path_join (path_dirname src) ".ffmetadata".
Proof. intros Hext. unfold getTempPath. rewrite Hext. by rewrite slice_no_extension. Qed.

End Builder.

(** C2. With [N] attachments in [options.attachments], the vector holds,
    after [-y] and the primary input, one input directive per attachment
    in the order supplied, then the primary mapping directive [-map 0:0],
    then the mapping directives [-map 1:0] to [-map N:0]; the k-th
    attachment (counted from 1) is the k-th additional input and the
    directive [-map k:0] sits at the matching place among the mappings. *)
Theorem getWriteArgs_attachments src dst data o (atts : list string) :
  attachments o = Some atts →
  let args := getWriteArgs src dst data (OptionsObject o) in
  let N := length atts in
  (∃ rest,
     args = ["-y"; "-i"; src] ++
            concat (input_directive <$> atts) ++
            ["-map"; "0:0"] ++
            concat (map_directive <$> seq 1 N) ++
            rest) ∧
  (∀ k el, atts !! k = Some el →
     args !! (3 + 2 * k)%nat = Some "-i" ∧
     args !! (4 + 2 * k)%nat = Some el ∧
     args !! (5 + 2 * N + 2 * k)%nat = Some "-map" ∧
     args !! (6 + 2 * N + 2 * k)%nat = Some (JsString.ofNat (S k) +:+ ":0")).
Proof.
  intros Hatts args N.
  assert (∃ rest,
            args = ["-y"; "-i"; src] ++ concat (input_directive <$> atts) ++
                   ["-map"; "0:0"] ++ concat (map_directive <$> seq 1 N) ++ rest)
    as [rest Hargs].
  { eexists. subst args. rewrite Builder.getWriteArgs_closed.
    cbn [getAttachments]. rewrite Hatts.
    cbn [default fmap list_fmap concat seq].
    change (input_directive src) with ["-i"; src].
    change (map_directive 0) with ["-map"; "0:0"].
    repeat (rewrite <- app_assoc || cbn [app]). reflexivity. }
  split; [by exists rest|].
  intros k el Hk. rewrite Hargs.
  pose proof (lookup_lt_Some _ _ _ Hk) as Hlt. fold N in Hlt.
  assert (length (concat (input_directive <$> atts)) = (2 * N)%nat) as Hin
    by (by apply Builder.length_concat_pairs).
  assert (length (concat (map_directive <$> seq 1 N)) = (2 * N)%nat) as Hmap
    by (rewrite Builder.length_concat_pairs by done; by rewrite length_seq).
  assert (seq 1 N !! k = Some (S k)) as Hseq by (by apply lookup_seq_lt).
  assert (∀ j, (j < 2)%nat →
            (["-y"; "-i"; src] ++ concat (input_directive <$> atts) ++
             ["-map"; "0:0"] ++ concat (map_directive <$> seq 1 N) ++ rest)
              !! (3 + 2 * k + j)%nat = input_directive el !! j) as Hinput.
  { intros j Hj. rewrite lookup_app_r by (cbn; lia).
    rewrite lookup_app_l by (rewrite Hin; cbn; lia).
    replace (3 + 2 * k + j - length ["-y"; "-i"; src])%nat with (2 * k + j)%nat
      by (cbn; lia).
    by apply Builder.lookup_concat_pairs. }
  assert (∀ j, (j < 2)%nat →
            (["-y"; "-i"; src] ++ concat (input_directive <$> atts) ++
             ["-map"; "0:0"] ++ concat (map_directive <$> seq 1 N) ++ rest)
              !! (5 + 2 * N + 2 * k + j)%nat = map_directive (S k) !! j) as Hmapping.
  { intros j Hj. rewrite lookup_app_r by (cbn; lia).
    rewrite lookup_app_r by (rewrite Hin; cbn; lia).
    rewrite lookup_app_r by (rewrite Hin; cbn; lia).
    rewrite lookup_app_l by (rewrite Hin, Hmap; cbn; lia).
    replace (5 + 2 * N + 2 * k + j - length ["-y"; "-i"; src]
             - length (concat (input_directive <$> atts))
             - length ["-map"; "0:0"])%nat with (2 * k + j)%nat
      by (rewrite Hin; cbn; lia).
    by apply Builder.lookup_concat_pairs. }
  repeat split.
  - specialize (Hinput 0%nat). rewrite Nat.add_0_r in Hinput. by apply Hinput; lia.
  - specialize (Hinput 1%nat).
    replace (4 + 2 * k)%nat with (3 + 2 * k + 1)%nat by lia. by apply Hinput; lia.
  - specialize (Hmapping 0%nat). rewrite Nat.add_0_r in Hmapping.
    by apply Hmapping; lia.
  - specialize (Hmapping 1%nat).
    replace (6 + 2 * N + 2 * k)%nat with (5 + 2 * N + 2 * k + 1)%nat by lia.
    by apply Hmapping; lia.
Qed.

Lemma getWriteArgs_attachments_witness :
  let args :=
    getWriteArgs "song.mp3" "song.ffmetadata.mp3" [("title", "Test")]
      (OptionsObject {| attachments := Some ["cover.jpg"; "back.png"];
                        id3v1 := None; id3v2_3 := None; dryRun := None;
                        coverPath := None |}) in
  args !! 6%nat = Some "back.png" ∧ args !! 12%nat = Some "2:0".
Proof.
  intros args.
  destruct (getWriteArgs_attachments "song.mp3" "song.ffmetadata.mp3"
              [("title", "Test")]
              {| attachments := Some ["cover.jpg"; "back.png"];
                 id3v1 := None; id3v2_3 := None; dryRun := None;
                 coverPath := None |}
              ["cover.jpg"; "back.png"] eq_refl) as (_ & Hpos).
  destruct (Hpos 1%nat "back.png" eq_refl) as (_ & Hel & _ & Hmap).
  split; [exact Hel | exact Hmap].
Defined.

(** C3 as stated fails: with one attachment the code puts the attachment's
    input directive before [-map 0:0], while the order of the
    specification puts [-map 0:0] right after the primary input. Besides,
    for a source without an extension the stem is dropped from the temp
    path. *)
Lemma getWriteArgs_not_interleaved :
  let opts := OptionsObject {| attachments := Some ["cover.jpg"]; id3v1 := None;
                               id3v2_3 := None; dryRun := None;
                               coverPath := None |} in
  let dst := @getTempPath plain_path "song.mp3" in
  getWriteArgs "song.mp3" dst [] opts
    = ["-y"; "-i"; "song.mp3"; "-i"; "cover.jpg"; "-map"; "0:0"; "-map"; "1:0";
       "-codec"; "copy"; "song.ffmetadata.mp3"] ∧
  spec_write_args "song.mp3" dst [] opts
    = ["-y"; "-i"; "song.mp3"; "-map"; "0:0"; "-i"; "cover.jpg"; "-map"; "1:0";
       "-codec"; "copy"; "song.ffmetadata.mp3"] ∧
  getWriteArgs "song.mp3" dst [] opts ≠ spec_write_args "song.mp3" dst [] opts ∧
  @getTempPath plain_path "song" = ".ffmetadata" ∧
  @getTempPath plain_path "song" ≠ "song" +:+ ".ffmetadata" +:+ "".
Proof. vm_compute. repeat split; congruence. Qed.

Section Calls.
Context `{PathModule} `{Through}.

(** C3, amended. The vector is, in this order: [-y]; the input directives
    of the source and of the attachments; the mapping directives
    [-map 0:0] to [-map N:0]; [-codec copy]; [-write_id3v1 1] exactly when
    [id3v1] is set; [-id3v2_version 3] exactly when [id3v2.3] is set; one
    metadata directive per key in the record's order; and last the temp
    path. For a source whose extension is not empty and whose base name is
    a stem followed by that extension, the temp path is the source's
    directory joined with stem, [.ffmetadata] and extension. *)
Theorem write_args_order src data opts :
  getWriteArgs src (getTempPath src) data opts =
    ["-y"] ++
    concat (input_directive <$> src :: getAttachments opts) ++
    concat (map_directive <$> seq 0 (S (length (getAttachments opts)))) ++
    ["-codec"; "copy"] ++
    (if flag id3v1 opts then ["-write_id3v1"; "1"] else []) ++
    (if flag id3v2_3 opts then ["-id3v2_version"; "3"] else []) ++
    concat (metadata_directive <$> data) ++
    [getTempPath src] ∧
  last (getWriteArgs src (getTempPath src) data opts) = Some (getTempPath src) ∧
  (∀ stem ext,
     path_extname src = ext → ext ≠ "" → path_basename src = stem +:+ ext →
     getTempPath src = path_join (path_dirname src) (stem +:+ ".ffmetadata" +:+ ext)).
Proof.
  split; [apply Builder.getWriteArgs_closed|]. split.
  - unfold getWriteArgs. destruct (foldl attach _ _). apply last_snoc.
  - intros stem ext Hext Hne Hbase. unfold getTempPath.
    rewrite Hext, Hbase. by rewrite Builder.slice_stem.
Qed.

(** C4. With [coverPath] set the read arguments are [-i src coverPath];
    without it they are [-i src -f ffmetadata pipe:1]; and these are the
    arguments a read call spawns the tool with. *)
Theorem getReadArgs_cases src o :
  (∀ cover, coverPath o = Some cover →
     getReadArgs src (OptionsObject o) = ["-i"; src; cover]) ∧
  (coverPath o = None →
     getReadArgs src (OptionsObject o) = ["-i"; src; "-f"; "ffmetadata"; "pipe:1"]) ∧
  (∀ cb, flag dryRun (OptionsObject o) = false →
     (read src (with_options o) cb).1.2
       = [Spawn (getReadArgs src (OptionsObject o)) true]).
Proof.
  repeat split.
  - intros cover Hc. destruct o. cbn in Hc. by subst.
  - intros Hc. destruct o. cbn in Hc. by subst.
  - intros cb Hdry. unfold read, with_options. cbn [shuffle]. by rewrite Hdry.
Qed.

(** C9. With [dryRun] set, [write] and [read] return the argument vector
    of the builder, perform no effect (no spawn, no rename, no unlink) and
    leave no handler behind, so nothing happens later either. *)
Theorem dryRun_is_pure src data o cb :
  dryRun o = Some true →
  write src data (with_options o) cb
    = (Args (getWriteArgs src (getTempPath src) data (OptionsObject o)), [], None) ∧
  (∀ fs evs,
     write_run fs src data (with_options o) cb evs
       = (Args (getWriteArgs src (getTempPath src) data (OptionsObject o)), [])) ∧
  read src (with_options o) cb
    = (Args (getReadArgs src (OptionsObject o)), [], None).
Proof.
  intros Hdry.
  assert (flag dryRun (OptionsObject o) = true) as Hflag by (cbn; by rewrite Hdry).
  assert (write src data (with_options o) cb
          = (Args (getWriteArgs src (getTempPath src) data (OptionsObject o)), [], None))
    as Hwrite.
  { unfold write, with_options. cbn [shuffle]. by rewrite Hflag. }
  repeat split.
  - exact Hwrite.
  - intros fs evs. unfold write_run. by rewrite Hwrite.
  - unfold read, with_options. cbn [shuffle]. by rewrite Hflag.
Qed.

End Calls.

Lemma write_args_order_witness :
  @getTempPath plain_path "song.mp3" = "song.ffmetadata.mp3" ∧
  last (getWriteArgs "song.mp3" (@getTempPath plain_path "song.mp3")
          [("title", "Test")] (OptionsObject no_options))
    = Some "song.ffmetadata.mp3".
Proof.
  destruct (@write_args_order plain_path "song.mp3" [("title", "Test")]
              (OptionsObject no_options)) as (_ & Hlast & Htemp).
  assert (@getTempPath plain_path "song.mp3" = "song.ffmetadata.mp3") as Hdst.
  { apply (Htemp "song" ".mp3"); [reflexivity|discriminate|reflexivity]. }
  split; [exact Hdst|]. rewrite Hlast, Hdst. reflexivity.
Defined.

Lemma getReadArgs_cases_witness :
  getReadArgs "song.mp3"
    (OptionsObject {| attachments := None; id3v1 := None; id3v2_3 := None;
                      dryRun := None; coverPath := Some "cover.jpg" |})
    = ["-i"; "song.mp3"; "cover.jpg"] ∧
  getReadArgs "song.mp3" (OptionsObject no_options)
    = ["-i"; "song.mp3"; "-f"; "ffmetadata"; "pipe:1"] ∧
  (@read fresh_through "song.mp3" (with_options no_options) true).1.2
    = [Spawn ["-i"; "song.mp3"; "-f"; "ffmetadata"; "pipe:1"] true].
Proof.
  split; [|split].
  - apply (@getReadArgs_cases fresh_through "song.mp3"
             {| attachments := None; id3v1 := None; id3v2_3 := None;
                dryRun := None; coverPath := Some "cover.jpg" |}).
    reflexivity.
  - apply (@getReadArgs_cases fresh_through "song.mp3" no_options). reflexivity.
  - apply (@getReadArgs_cases fresh_through "song.mp3" no_options). reflexivity.
Defined.

Lemma dryRun_is_pure_witness :
  let o := {| attachments := None; id3v1 := None; id3v2_3 := None;
              dryRun := Some true; coverPath := None |} in
  @write_run plain_path fresh_through fs_ok "song.mp3" [("title", "Test")]
    (with_options o) true [ProcClose (Some 0) ""]
    = (Args ["-y"; "-i"; "song.mp3"; "-map"; "0:0"; "-codec"; "copy";
             "-metadata"; "title=Test"; "song.ffmetadata.mp3"], []).
Proof.
  intros o.
  destruct (@dryRun_is_pure plain_path fresh_through "song.mp3"
              [("title", "Test")] o true eq_refl) as (_ & Hrun & _).
  rewrite Hrun. reflexivity.
Defined.

(** ** The write pipeline *)

Module Pipeline.


(** The handlers never emit "metadata", so the callback of [write] is only
    ever called with an error. *)
Lemma write_on_callbacks fs r ev err d :
  (err, d) ∈ callbacks (write_on fs r ev) → d = None ∧ is_Some err.
Proof.
  destruct r as [src dst cb]. unfold write_on, finish, handleError, write_emit.
  cbn [run_src run_dst run_callback].
  unfold getBody_toString.
  destruct ev as [e|chunk|[[|p|p]|] [|c stderr]]; try destruct (fs_rename fs dst src);
    destruct cb; cbn; rewrite ?elem_of_cons, ?elem_of_nil;
    intros; destruct_or?; simplify_eq; eauto.
Qed.

(** What [write] returns when it runs does not depend on [data]. *)
Lemma write_returns_stream_fields `{PathModule} `{Through} src data a cb :
  flag dryRun (shuffle a cb).1 = false →
  (write src data a cb).1.1 = Rt (convenience through_prop).
Proof.
  unfold write. destruct (shuffle a cb) as [opts cb']. cbn [fst].
  by intros ->.
Qed.

(** In [read] the wiring is the other way round: success emits "metadata"
    while the callback listens for "end". *)
Lemma read_on_success cb output stderr :
  read_on cb output (ProcClose (Some 0) stderr) = [Emit (EvMetadata output)].
Proof. unfold read_on, read_emit. by destruct cb. Qed.

End Pipeline.

Section WritePipeline.
Context `{PathModule} `{Through}.


End WritePipeline.



(** C10, at the failing input: a successful write of [{title: "Test",
    artist: "A"}] is committed, yet the record it returns is read off the
    stream object and holds [null] in every field, and the callback is
    never called, because the pipeline emits "end" while the callback
    listens for "metadata". *)
Theorem write_success_returns_nulls :
  let data := [("title", "Test"); ("artist", "A")] in
  let result :=
    @write_run plain_path fresh_through fs_ok "song.mp3" data
      (with_options no_options) true [ProcClose (Some 0) ""] in
  Committed "song.mp3" "song.ffmetadata.mp3" result.2 ∧
  callbacks result.2 = [] ∧
  result.1 = Rt {| album := None; artist := None; date := None; disk := None;
                   label := None; title := None; track := None |} ∧
  entry data "title" = Some "Test" ∧
  entry data "artist" = Some "A".
Proof. vm_compute. repeat split. Qed.

(** * Further properties of the code *)

#[local] Set Warnings "-clear-no-such-hyp".

(** ** Decoding what the builder encodes *)

Module Codec.
Import JsString JsStringFacts.

Lemma append_assoc a b c : (a +:+ b) +:+ c = a +:+ b +:+ c.
Proof. induction a as [|x a IH]; [done|]. by rewrite !append_cons, IH. Qed.

Lemma append_empty_r a : a +:+ "" = a.
Proof. induction a as [|x a IH]; [done|]. by rewrite append_cons, IH. Qed.

Lemma isNotComment_token k r :
  isNotComment (k +:+ "=" +:+ r) = isNotComment k.
Proof.
  destruct k as [|c k].
  - by rewrite append_nil, append_cons, Decoder.isNotComment_cons.
  - by rewrite append_cons, !Decoder.isNotComment_cons.
Qed.

Lemma isNotComment_append k r :
  k ≠ "" → isNotComment (k +:+ r) = isNotComment k.
Proof.
  destruct k as [|c k]; [done|]. intros _.
  by rewrite append_cons, !Decoder.isNotComment_cons.
Qed.

Lemma Boolean_append_r k r : Boolean r = true → Boolean (k +:+ r) = true.
Proof. destruct k; [done|]. by rewrite append_cons. Qed.

Lemma feed_cons st line lines :
  parseini_feed st (line :: lines) = parseini_feed (parseini_feed st [line]) lines.
Proof. apply (Decoder.feed_app st [line] lines). Qed.

Lemma feed_effective st lines :
  parseini_feed st lines = foldl parseLine st (effective lines).
Proof. reflexivity. Qed.

(** One token of the builder, decoded. *)
Lemma feed_token st (kv : string * string) :
  occurs "=" kv.1 = false → (∀ rest, kv.1 ≠ ";" +:+ rest) → kv.1 ≠ "__proto__" →
  parseini_feed st [metadata_token kv]
    = Ini (<[kv.1 := kv.2]> (ini_data st)) (Some kv.1) (ini_thrown st).
Proof.
  intros Hk Hc Hp. unfold metadata_token, escapeini.
  rewrite Decoder.feed_line.
  - by apply Decoder.parseLine_key.
  - apply Decoder.line_with_eq_not_blank.
  - rewrite isNotComment_token. by apply Decoder.isNotComment_true.
Qed.

Lemma feed_tokens (data : metadata) : ∀ st,
  Forall (λ kv, occurs "=" kv.1 = false ∧ (∀ rest, kv.1 ≠ ";" +:+ rest) ∧
                kv.1 ≠ "__proto__") data →
  ini_data (parseini_feed st (metadata_token <$> data))
    = foldl (λ m kv, <[kv.1 := kv.2]> m) (ini_data st) data ∧
  ini_thrown (parseini_feed st (metadata_token <$> data)) = ini_thrown st.
Proof.
  induction data as [|kv data IH]; intros st Hall; [done|].
  apply Forall_cons in Hall as [(Hk & Hc & Hp) Hall].
  rewrite fmap_cons, feed_cons, feed_token by done.
  destruct (IH (Ini (<[kv.1 := kv.2]> (ini_data st)) (Some kv.1) (ini_thrown st)) Hall)
    as [Hd Ht].
  by rewrite Hd, Ht.
Qed.

Lemma foldl_insert_lookup (data : metadata) k v : ∀ m : gmap string string,
  NoDup (data.*1) →
  foldl (λ m kv, <[kv.1 := kv.2]> m) m data !! k = Some v ↔
    (k, v) ∈ data ∨ ((k ∉ data.*1) ∧ m !! k = Some v).
Proof.
  induction data as [|[k0 v0] data IH]; intros m Hnd.
  - cbn. split.
    + intros Hm. right. split; [by intros ?%elem_of_nil|done].
    + by intros [?%elem_of_nil|[_ ?]].
  - rewrite fmap_cons in Hnd. apply NoDup_cons in Hnd as [Hk0 Hnd].
    cbn [fst] in Hk0.
    assert (∀ w, (k0, w) ∉ data) as Hfresh.
    { intros w Hin. apply Hk0, list_elem_of_fmap. by exists (k0, w). }
    cbn [foldl fst snd]. rewrite (IH _ Hnd), fmap_cons. cbn [fst].
    rewrite !elem_of_cons. destruct (decide (k = k0)) as [->|Hne].
    + rewrite lookup_insert_eq. split.
      * intros [Hin|[_ [= ->]]]; [by destruct (Hfresh v)|by left; left].
      * intros [[[= ->]|Hin]|[Hno _]]; [by right|by destruct (Hfresh v)|].
        destruct Hno. by left.
    + rewrite lookup_insert_ne by done. split.
      * intros [Hin|[Hno Hm]]; [by left; right|]. right. split; [|done].
        by intros [?|?].
      * intros [[[= ? _]|Hin]|[Hno Hm]]; [done|by left|]. right. split; [|done].
        intros Hin. apply Hno. by right.
Qed.

End Codec.

(** X1. Round trip of clean entries: when no key of the record holds [=],
    starts with [;] or is [__proto__], and neither keys nor values hold a
    line break, so that every token the builder puts after [-metadata] is
    one line for the decoder, decoding these lines gives back the record
    and raises no exception: later entries win over earlier ones with the
    same key, and with distinct keys the decoded map holds exactly the
    entries of the record. *)
Theorem metadata_round_trip src dst opts (data : metadata) :
  Forall (λ kv, JsString.occurs "=" kv.1 = false ∧ (∀ rest, kv.1 ≠ ";" +:+ rest) ∧
                kv.1 ≠ "__proto__" ∧
                has_line_break kv.1 = false ∧ has_line_break kv.2 = false) data →
  (∃ front,
     getWriteArgs src dst data opts
       = front ++ concat ((λ kv, ["-metadata"; metadata_token kv]) <$> data) ++ [dst]) ∧
  parseini (metadata_token <$> data)
    = foldl (λ m kv, <[kv.1 := kv.2]> m) ∅ data ∧
  ini_thrown (parseini_feed ini_init (metadata_token <$> data)) = false ∧
  (NoDup (data.*1) →
   ∀ k v, parseini (metadata_token <$> data) !! k = Some v ↔ (k, v) ∈ data).
Proof.
  intros Hclean.
  assert (Forall (λ kv, JsString.occurs "=" kv.1 = false ∧
                        (∀ rest, kv.1 ≠ ";" +:+ rest) ∧ kv.1 ≠ "__proto__") data)
    as Hkeys by (eapply Forall_impl; [exact Hclean|]; naive_solver).
  destruct (Codec.feed_tokens data ini_init Hkeys) as [Hdec Hthrown].
  split; [|split; [exact Hdec|split; [exact Hthrown|]]].
  - exists (["-y"] ++
            concat (input_directive <$> src :: getAttachments opts) ++
            concat (map_directive <$> seq 0 (S (length (getAttachments opts)))) ++
            ["-codec"; "copy"] ++
            (if flag id3v1 opts then ["-write_id3v1"; "1"] else []) ++
            (if flag id3v2_3 opts then ["-id3v2_version"; "3"] else [])).
    rewrite Builder.getWriteArgs_closed. by rewrite <- !app_assoc.
  - intros Hnd k v. unfold parseini. rewrite Hdec, Codec.foldl_insert_lookup by done.
    cbn [ini_data ini_init]. rewrite lookup_empty.
    split; [by intros [?|[_ ?]]|by left].
Qed.

Lemma metadata_round_trip_witness :
  parseini (metadata_token <$> [("title", "a=b"); ("artist", ";x")]) !! "title"
    = Some "a=b".
Proof.
  destruct (metadata_round_trip "s.mp3" "s.ffmetadata.mp3" (OptionsObject no_options)
              [("title", "a=b"); ("artist", ";x")]) as (_ & _ & _ & Hiff).
  - repeat (constructor;
            [repeat split; try reflexivity; try discriminate; intros; discriminate|]).
    constructor.
  - apply Hiff.
    + apply (bool_decide_unpack _). vm_compute. exact I.
    + apply list_elem_of_here.
Defined.

(** X2. Keys that do not survive the round trip, for entries without line
    breaks. A key that holds [=] yields the same token as the shorter key
    before its first [=], and the decoder stores the rest of the key in
    front of the value (the shorter key not being [__proto__]); an entry
    whose key starts with [;] is dropped by the decoder as a comment. *)
Theorem metadata_key_collisions (st : ini) (k1 k2 v : string) :
  JsString.occurs "=" k1 = false → (∀ rest, k1 ≠ ";" +:+ rest) →
  k1 ≠ "__proto__" →
  has_line_break k1 = false → has_line_break k2 = false → has_line_break v = false →
  metadata_token (k1 +:+ "=" +:+ k2, v) = metadata_token (k1, k2 +:+ "=" +:+ v) ∧
  parseini_feed st [metadata_token (k1 +:+ "=" +:+ k2, v)]
    = Ini (<[k1 := k2 +:+ "=" +:+ v]> (ini_data st)) (Some k1) (ini_thrown st) ∧
  parseini_feed st [metadata_token (";" +:+ k2, v)] = st.
Proof.
  intros Hk Hc Hp _ _ _.
  assert (metadata_token (k1 +:+ "=" +:+ k2, v) = metadata_token (k1, k2 +:+ "=" +:+ v))
    as Heq.
  { unfold metadata_token, escapeini. cbn [fst snd].
    by rewrite !Codec.append_assoc. }
  split; [exact Heq|split].
  - rewrite Heq. by apply Codec.feed_token.
  - apply Decoder.feed_skipped. right. by eexists.
Qed.

Lemma metadata_key_collisions_witness :
  parseini [metadata_token ("a=b", "c")] = {[ "a" := "b=c" ]}.
Proof.
  destruct (metadata_key_collisions ini_init "a" "b" "c") as (_ & Hdec & _);
    [reflexivity|intros rest; discriminate|discriminate|reflexivity..|].
  unfold parseini. change ("a=b") with ("a" +:+ "=" +:+ "b").
  rewrite Hdec. reflexivity.
Defined.

(** ** Values over several lines, skipped lines, decoded keys *)

Module Lines.
Import JsString JsStringFacts.

Lemma occurs_backslash_join J s :
  occurs (ascii_of_nat 92) J = false → occurs (ascii_of_nat 92) s = false →
  occurs (ascii_of_nat 92) (J +:+ newline +:+ s) = false.
Proof. intros HJ Hs. by rewrite !occurs_append, HJ, Hs. Qed.

(** A line that ends in a backslash, fed while the stored value ends in
    one: the earlier backslash becomes the line break. *)
Lemma feed_continued st k J s :
  ini_key st = Some k → k ≠ "__proto__" →
  ini_data st !! k = Some (J +:+ backslash) →
  occurs (ascii_of_nat 92) J = false →
  occurs "=" s = false → isNotComment s = true →
  parseini_feed st [s +:+ backslash]
    = Ini (<[k := (J +:+ newline +:+ s) +:+ backslash]> (ini_data st)) (Some k)
          (ini_thrown st).
Proof.
  intros Hkey Hp Hv HJ Hs Hc. rewrite Decoder.feed_line.
  - rewrite Decoder.parseLine_continuation by (by rewrite occurs_append, Hs).
    rewrite Hkey. cbn [toString]. rewrite (Decoder.is_proto_false k Hp).
    rewrite Decoder.obj_set_insert by done. rewrite Hv. cbn [toString].
    rewrite Codec.append_assoc.
    change (backslash +:+ s +:+ backslash) with (String (ascii_of_nat 92) (s +:+ backslash)).
    assert (replace backslash newline (J +:+ String (ascii_of_nat 92) (s +:+ backslash))
            = J +:+ newline +:+ s +:+ backslash) as -> by (by apply replace_first).
    by rewrite !Codec.append_assoc.
  - by apply Codec.Boolean_append_r.
  - destruct s as [|c s]; [done|]. by rewrite Codec.isNotComment_append.
Qed.

(** The last line of the value, without a backslash of its own. *)
Lemma feed_last st k J s :
  ini_key st = Some k → k ≠ "__proto__" →
  ini_data st !! k = Some (J +:+ backslash) →
  occurs (ascii_of_nat 92) J = false →
  occurs "=" s = false → isNotComment s = true → Boolean s = true →
  parseini_feed st [s]
    = Ini (<[k := J +:+ newline +:+ s]> (ini_data st)) (Some k) (ini_thrown st).
Proof.
  intros Hkey Hp Hv HJ Hs Hc Hb. rewrite Decoder.feed_line by done.
  rewrite Decoder.parseLine_continuation by done.
  rewrite Hkey. cbn [toString]. rewrite (Decoder.is_proto_false k Hp).
  rewrite Decoder.obj_set_insert by done. rewrite Hv. cbn [toString].
  rewrite Codec.append_assoc.
  change (backslash +:+ s) with (String (ascii_of_nat 92) s).
  assert (replace backslash newline (J +:+ String (ascii_of_nat 92) s)
          = J +:+ newline +:+ s) as -> by (by apply replace_first).
  done.
Qed.

Lemma feed_middle mids : ∀ st k J,
  ini_key st = Some k → k ≠ "__proto__" →
  ini_data st !! k = Some (J +:+ backslash) →
  occurs (ascii_of_nat 92) J = false →
  Forall (λ s, occurs (ascii_of_nat 92) s = false ∧ occurs "=" s = false ∧
               isNotComment s = true) mids →
  parseini_feed st ((λ s, s +:+ backslash) <$> mids)
    = Ini (<[k := join_lines J mids +:+ backslash]> (ini_data st)) (Some k)
          (ini_thrown st) ∧
  occurs (ascii_of_nat 92) (join_lines J mids) = false.
Proof.
  induction mids as [|s mids IH]; intros st k J Hkey Hp Hv HJ Hall.
  - cbn. split; [|done]. destruct st as [d key t]. cbn in *. subst.
    by rewrite insert_id.
  - apply Forall_cons in Hall as [(Hb & He & Hc) Hall].
    rewrite fmap_cons, Codec.feed_cons, (feed_continued st k J s) by done.
    destruct (IH (Ini (<[k := (J +:+ newline +:+ s) +:+ backslash]> (ini_data st))
                      (Some k) (ini_thrown st))
                 k (J +:+ newline +:+ s)) as [Hfeed Hocc];
      [done|done|apply lookup_insert_eq|by apply occurs_backslash_join|done|].
    rewrite Hfeed. cbn [ini_data ini_thrown]. by rewrite insert_insert_eq.
Qed.

Lemma join_lines_snoc s0 mids last :
  join_lines s0 (mids ++ [last]) = join_lines s0 mids +:+ newline +:+ last.
Proof. unfold join_lines. by rewrite foldl_app. Qed.

Lemma line_key_present line :
  occurs "=" line = true → is_Some (line_key line).
Proof.
  intros Hl. unfold line_key, unescapeini.
  destruct (Z.eqb_spec (indexOf "=" line) (-1)) as [E|E]; [|eauto].
  by apply indexOf_present in Hl.
Qed.

(** The keys in [stream.data] grow by the key of the line, if it has one
    other than [__proto__], once a key has been seen. *)
Lemma parseLine_dom st line k0 :
  ini_key st = Some k0 → (is_proto k0 = false → is_Some (ini_data st !! k0)) →
  dom (ini_data (parseLine st line))
    = dom (ini_data st) ∪ (match line_key line with
                           | Some k => if is_proto k then ∅ else {[k]}
                           | None => ∅
                           end : gset string) ∧
  ∃ k, ini_key (parseLine st line) = Some k ∧
       (is_proto k = false → is_Some (ini_data (parseLine st line) !! k)).
Proof.
  intros Hkey Hv. unfold parseLine, line_key.
  destruct (indexOf "=" (unescapeini line) =? -1).
  - rewrite Hkey. cbn [toString]. destruct (is_proto k0) eqn:E.
    + cbn [ini_data ini_key]. split; [set_solver|]. exists k0. split; [done|].
      by rewrite E.
    + unfold obj_set. rewrite E. cbn [ini_data ini_key]. rewrite dom_insert_L. split.
      * specialize (Hv eq_refl). apply elem_of_dom in Hv. set_solver.
      * exists k0. rewrite lookup_insert_eq. eauto.
  - cbn [ini_data ini_key]. unfold obj_set.
    destruct (is_proto (slice (unescapeini line) 0
                          (Some (indexOf "=" (unescapeini line))))) eqn:E.
    + split; [set_solver|]. eexists. split; [done|]. by rewrite E.
    + rewrite dom_insert_L. split; [set_solver|].
      eexists. rewrite lookup_insert_eq. eauto.
Qed.

Lemma foldl_parseLine_dom ls : ∀ st k0,
  ini_key st = Some k0 → (is_proto k0 = false → is_Some (ini_data st !! k0)) →
  dom (ini_data (foldl parseLine st ls))
    = dom (ini_data st) ∪
      list_to_set (List.filter (λ k, negb (is_proto k)) (omap line_key ls)).
Proof.
  induction ls as [|l ls IH]; intros st k0 Hkey Hv.
  - cbn. set_solver.
  - cbn [foldl].
    destruct (parseLine_dom st l k0 Hkey Hv) as (Hdom & k & Hkey' & Hv').
    rewrite (IH _ k Hkey' Hv'), Hdom. cbn [omap list_omap].
    destruct (line_key l) as [k1|]; cbn [List.filter]; [|set_solver].
    destruct (is_proto k1); cbn; set_solver.
Qed.

End Lines.

(** X3. A value written over several lines is put together again: after
    the key line [k=s0\\], with [k] other than [__proto__], the lines
    [s1\\], ..., and a last line without a backslash, where no segment
    holds a backslash and no continuation holds [=] or starts with [;],
    the value stored for [k] is the segments joined by line breaks, and
    no exception is raised on the way. *)
Theorem multi_line_value (st : ini) (k s0 : string) (mids : list string) (last : string) :
  JsString.occurs "=" k = false → (∀ rest, k ≠ ";" +:+ rest) → k ≠ "__proto__" →
  JsString.occurs (ascii_of_nat 92) s0 = false →
  Forall (λ s, JsString.occurs (ascii_of_nat 92) s = false ∧
               JsString.occurs "=" s = false ∧ (∀ rest, s ≠ ";" +:+ rest))
         (mids ++ [last]) →
  last ≠ "" →
  parseini_feed st (multi_line k s0 mids last)
    = Ini (<[k := join_lines s0 (mids ++ [last])]> (ini_data st)) (Some k)
          (ini_thrown st).
Proof.
  intros Hk Hc Hp Hs0 Hall Hb.
  assert (Forall (λ s, JsString.occurs (ascii_of_nat 92) s = false ∧
                       JsString.occurs "=" s = false ∧ isNotComment s = true)
                 (mids ++ [last])) as Hall'.
  { eapply Forall_impl; [exact Hall|]. intros s (? & ? & ?).
    repeat split; [done..|]. by apply Decoder.isNotComment_true. }
  clear Hall. apply Forall_app in Hall' as [Hmids Hlast].
  apply Forall_singleton in Hlast as (Hlb & Hle & Hlc).
  unfold multi_line. rewrite Codec.feed_cons, Decoder.feed_line.
  - rewrite Decoder.parseLine_key by done. rewrite Decoder.feed_app.
    destruct (Lines.feed_middle mids
                (Ini (<[k := s0 +:+ backslash]> (ini_data st)) (Some k) (ini_thrown st))
                k s0)
      as [Hfeed Hocc]; [done|done|apply lookup_insert_eq|done|done|].
    rewrite Hfeed. cbn [ini_data ini_thrown]. rewrite insert_insert_eq.
    rewrite (Lines.feed_last _ k (join_lines s0 mids) last);
      [|done|done|apply lookup_insert_eq|done|done|done|by destruct last].
    cbn [ini_data ini_thrown]. by rewrite insert_insert_eq, Lines.join_lines_snoc.
  - apply Decoder.line_with_eq_not_blank.
  - rewrite Codec.isNotComment_token. by apply Decoder.isNotComment_true.
Qed.

Lemma multi_line_value_witness :
  parseini ["comment=one" +:+ backslash; "two" +:+ backslash; "three"] !! "comment"
    = Some ("one" +:+ newline +:+ "two" +:+ newline +:+ "three").
Proof.
  pose proof (multi_line_value ini_init "comment" "one" ["two"] "three") as Hv.
  unfold parseini. change (parseini_feed ini_init _)
    with (parseini_feed ini_init (multi_line "comment" "one" ["two"] "three")).
  rewrite Hv; [|reflexivity|intros rest; discriminate|discriminate|reflexivity|
                |discriminate].
  - cbn [ini_data]. rewrite lookup_insert_eq. reflexivity.
  - repeat (constructor; [repeat split; try reflexivity; intros; discriminate|]).
    constructor.
Defined.

(** X4. Lines that never reach the parser. An empty line or a line that
    starts with [;] can be put anywhere in the input without changing
    what is decoded; every other line, also one of blanks only or one
    that starts with [#], is parsed. *)
Theorem skipped_lines (st : ini) (before after : list string) (line : string) :
  (line = "" ∨ (∃ rest, line = ";" +:+ rest) →
     parseini_feed st (before ++ line :: after) = parseini_feed st (before ++ after) ∧
     parseini (before ++ line :: after) = parseini (before ++ after)) ∧
  (line ≠ "" → (∀ rest, line ≠ ";" +:+ rest) →
     parseini_feed st (before ++ line :: after)
       = parseini_feed (parseLine (parseini_feed st before) line) after).
Proof.
  split.
  - intros Hskip.
    assert (∀ s, parseini_feed s (before ++ line :: after) = parseini_feed s (before ++ after))
      as Hfeed.
    { intros s. rewrite !Decoder.feed_app, Codec.feed_cons, Decoder.feed_skip; [done|].
      destruct Hskip as [->|Hc]; [by left|right]. by apply Decoder.isNotComment_false. }
    split; [apply Hfeed|]. unfold parseini. by rewrite Hfeed.
  - intros Hne Hnc. rewrite Decoder.feed_app, Codec.feed_cons, Decoder.feed_line; [done|..].
    + by destruct line.
    + destruct (isNotComment line) eqn:E; [done|].
      apply Decoder.isNotComment_false in E as [rest ->]. by destruct (Hnc rest).
Qed.

Lemma skipped_lines_witness :
  parseini ["title=Test"; ";FFMETADATA1"; "artist=A"] = parseini ["title=Test"; "artist=A"] ∧
  parseini ["title=Test"; "#x"] !! "title" = Some "Test#x".
Proof.
  split.
  - apply (skipped_lines ini_init ["title=Test"] ["artist=A"] ";FFMETADATA1").
    right. by exists "FFMETADATA1".
  - unfold parseini.
    destruct (skipped_lines ini_init ["title=Test"] [] "#x") as [_ Hparse].
    change (parseini_feed ini_init ["title=Test"; "#x"])
      with (parseini_feed ini_init (["title=Test"] ++ "#x" :: [])).
    rewrite Hparse; [reflexivity|discriminate|]. intros rest. discriminate.
Defined.

(** X5. No invented keys: when the first line that reaches the parser
    holds [=] and decoding raises no exception, the keys of the decoded
    map are exactly the texts before the first [=] of the parsed lines
    that hold one, [__proto__] left out; continuation lines add no key. *)
Theorem decoded_keys (lines : list string) (first : string) (others : list string) :
  effective lines = first :: others → JsString.occurs "=" first = true →
  ini_thrown (parseini_feed ini_init lines) = false →
  dom (parseini lines)
    = list_to_set (List.filter (λ k, negb (is_proto k))
                     (omap line_key (effective lines))).
Proof.
  intros Heff Hfirst _. unfold parseini. rewrite Codec.feed_effective, Heff.
  cbn [foldl omap list_omap].
  destruct (Lines.line_key_present first Hfirst) as [k Hk]. rewrite Hk.
  assert (parseLine ini_init first
          = Ini (obj_set k (JsString.slice first (JsString.indexOf "=" first + 1) None) ∅)
                (Some k) false)
    as Hst.
  { unfold line_key, unescapeini in Hk. unfold parseLine, unescapeini.
    destruct (JsString.indexOf "=" first =? -1); [done|].
    injection Hk as <-. done. }
  rewrite (Lines.foldl_parseLine_dom others _ k).
  - rewrite Hst. cbn [ini_data List.filter]. unfold obj_set.
    destruct (is_proto k); cbn [negb]; [set_solver|].
    rewrite insert_empty, dom_singleton_L. set_solver.
  - by rewrite Hst.
  - rewrite Hst. cbn [ini_data]. intros Hp. by apply Decoder.obj_set_lookup.
Qed.

Lemma decoded_keys_witness :
  dom (parseini [";FFMETADATA1"; "title=a" +:+ backslash; "b"; "__proto__=x";
                 ""; "artist=x=y"])
    = ({["title"; "artist"]} : gset string).
Proof.
  rewrite (decoded_keys _ ("title=a" +:+ backslash) ["b"; "__proto__=x"; "artist=x=y"]);
    [|reflexivity..].
  vm_compute List.filter. set_solver.
Defined.

(** ** Shape of the write arguments *)

(** X6. The write arguments depend on the options only through the
    attachment list and the two id3 flags: [dryRun] and [coverPath] never
    change them, an array passed as [options] counts as its own attachment
    list with no flag set, and leaving [attachments] out is the same as
    passing an empty list. *)
Theorem getWriteArgs_options_frame src dst (data : metadata) (opts opts' : options) :
  getAttachments opts = getAttachments opts' →
  flag id3v1 opts = flag id3v1 opts' →
  flag id3v2_3 opts = flag id3v2_3 opts' →
  getWriteArgs src dst data opts = getWriteArgs src dst data opts'.
Proof.
  intros Hatt Hv1 Hv2. rewrite !Builder.getWriteArgs_closed.
  by rewrite Hatt, Hv1, Hv2.
Qed.

Lemma getWriteArgs_options_frame_witness :
  getWriteArgs "song.mp3" "song.ffmetadata.mp3" [("title", "Test")]
    (OptionsArray ["cover.jpg"])
  = getWriteArgs "song.mp3" "song.ffmetadata.mp3" [("title", "Test")]
      (OptionsObject {| attachments := Some ["cover.jpg"]; id3v1 := Some false;
                        id3v2_3 := None; dryRun := Some true;
                        coverPath := Some "cover.png" |}) ∧
  getWriteArgs "song.mp3" "song.ffmetadata.mp3" [] (OptionsObject no_options)
  = getWriteArgs "song.mp3" "song.ffmetadata.mp3" [] (OptionsArray []).
Proof.
  split; apply getWriteArgs_options_frame; reflexivity.
Defined.

(** X7. The size of the vector: [-y] and the output, two arguments for the
    source input, for its mapping and for the codec, four per attachment,
    two per id3 flag that is set and two per metadata entry; and [-y]
    always comes first. *)
Theorem getWriteArgs_length src dst (data : metadata) opts :
  length (getWriteArgs src dst data opts)
    = (8 + 4 * length (getAttachments opts)
       + (if flag id3v1 opts then 2 else 0)
       + (if flag id3v2_3 opts then 2 else 0)
       + 2 * length data)%nat ∧
  head (getWriteArgs src dst data opts) = Some "-y".
Proof.
  rewrite Builder.getWriteArgs_closed. split; [|done].
  rewrite !length_app.
  rewrite !Builder.length_concat_pairs by done.
  rewrite length_seq. cbn [length].
  destruct (flag id3v1 opts), (flag id3v2_3 opts); cbn [length]; lia.
Qed.

(** X8. Sources without an extension: the base name is cut to nothing, so
    the temp path is [.ffmetadata] in the source's directory, and two such
    sources of one directory get the same temp path. *)
Theorem temp_path_without_extension `{PathModule} (src1 src2 : string) :
  path_extname src1 = "" → path_extname src2 = "" →
  path_dirname src1 = path_dirname src2 →
  getTempPath src1 = path_join (path_dirname src1) ".ffmetadata" ∧
  getTempPath src1 = getTempPath src2.
Proof.
  intros He1 He2 Hdir.
  rewrite !Builder.getTempPath_no_extension by done. by rewrite Hdir.
Qed.

Lemma temp_path_without_extension_witness :
  @getTempPath plain_path "song" = ".ffmetadata" ∧
  @getTempPath plain_path "song" = @getTempPath plain_path "notes".
Proof.
  destruct (@temp_path_without_extension plain_path "song" "notes")
    as [Hpath Hsame]; [reflexivity..|].
  split; [|exact Hsame]. rewrite Hpath. reflexivity.
Defined.

(** ** Whole traces of a write and of a read *)

Module Traces.

Lemma renames_app a b : renames (a ++ b) = renames a ++ renames b.
Proof. apply omap_app. Qed.

Lemma unlinks_app a b : unlinks (a ++ b) = unlinks a ++ unlinks b.
Proof. apply omap_app. Qed.

Lemma spawns_app a b : spawns (a ++ b) = spawns a ++ spawns b.
Proof. apply omap_app. Qed.

Lemma errors_app a b : errors (a ++ b) = errors a ++ errors b.
Proof. apply omap_app. Qed.

Lemma callbacks_app a b : callbacks (a ++ b) = callbacks a ++ callbacks b.
Proof. apply omap_app. Qed.

Lemma datas_app a b : datas (a ++ b) = datas a ++ datas b.
Proof. apply omap_app. Qed.

Lemma metadatas_app a b : metadatas (a ++ b) = metadatas a ++ metadatas b.
Proof. apply omap_app. Qed.

(** A write that runs: one spawn, then the handlers. *)
Lemma write_run_running `{PathModule} `{Through} fs src data a cb evs :
  flag dryRun (shuffle a cb).1 = false →
  write_run fs src data a cb evs =
    (Rt (convenience through_prop),
     Spawn (getWriteArgs src (getTempPath src) data (shuffle a cb).1) false ::
     concat (write_on fs {| run_src := src; run_dst := getTempPath src;
                            run_callback := (shuffle a cb).2 |} <$> evs)).
Proof.
  unfold write_run, write. destruct (shuffle a cb) as [opts cb']. cbn [fst snd].
  by intros ->.
Qed.

Lemma type_errors_app a b : type_errors (a ++ b) = (type_errors a + type_errors b)%nat.
Proof. unfold type_errors. by rewrite List.filter_app, length_app. Qed.

(** File-system calls of one handler. *)
Lemma write_on_fs fs r ev :
  spawns (write_on fs r ev) = [] ∧
  renames (write_on fs r ev)
    = (if is_zero_close ev then [(run_dst r, run_src r)] else []) ∧
  unlinks (write_on fs r ev)
    = (if is_close ev then
         if is_zero_close ev then
           match fs_rename fs (run_dst r) (run_src r) with
           | Some _ => [run_dst r]
           | None => []
           end
         else if is_silent_close ev then [] else [run_dst r]
       else []) ∧
  type_errors (write_on fs r ev) = (if is_silent_close ev then 1 else 0)%nat.
Proof.
  destruct r as [src dst cb]. unfold write_on, finish, handleError, write_emit.
  cbn [run_src run_dst run_callback]. unfold getBody_toString.
  destruct ev as [e|chunk|[[|p|p]|] [|c stderr]]; try destruct (fs_rename fs dst src);
    destruct cb; done.
Qed.

(** File-system calls of the handlers over a list of events. *)
Lemma handlers_fs fs r evs :
  let effs := concat (write_on fs r <$> evs) in
  let closes := length (List.filter is_close evs) in
  let zeros := length (List.filter is_zero_close evs) in
  let silents := length (List.filter is_silent_close evs) in
  spawns effs = [] ∧
  renames effs = replicate zeros (run_dst r, run_src r) ∧
  Forall (λ p, p = run_dst r) (unlinks effs) ∧
  (length (unlinks effs) ≤ closes)%nat ∧
  type_errors effs = silents ∧
  (fs_rename fs (run_dst r) (run_src r) = None →
   (length (unlinks effs) + zeros + silents)%nat = closes).
Proof.
  induction evs as [|ev evs IH]; cbn zeta.
  - repeat split; [constructor|done].
  - cbn zeta in IH. destruct IH as (Hs & Hr & Hall & Hle & Ht & Hok).
    rewrite fmap_cons. cbn [concat].
    destruct (write_on_fs fs r ev) as (Hs1 & Hr1 & Hu1 & Ht1).
    rewrite spawns_app, renames_app, unlinks_app, type_errors_app.
    rewrite Hs, Hr, Ht, Hs1, Hr1, Hu1, Ht1.
    rewrite Forall_app, length_app. cbn [List.filter].
    assert (is_zero_close ev = true → is_close ev = true ∧ is_silent_close ev = false)
      as Hzc by (by destruct ev as [| |[[| |]|] ?]).
    assert (is_silent_close ev = true → is_close ev = true) as Hsc
      by (by destruct ev as [| |[[| |]|] ?]).
    destruct (is_zero_close ev) eqn:Hz;
      [destruct (Hzc eq_refl) as [-> ->];
       destruct (fs_rename fs (run_dst r) (run_src r)) eqn:Hren
      |destruct (is_silent_close ev) eqn:Hsil;
       [rewrite (Hsc eq_refl)|destruct (is_close ev) eqn:Hc]];
      cbn [length]; repeat split; try done; try (by repeat constructor);
      try (cbn; lia);
      intros Hnone; (done || (specialize (Hok Hnone); cbn; lia)).
Qed.

(** What the caller sees of the handlers over a list of events. *)
Lemma handlers_caller fs r evs :
  let effs := concat (write_on fs r <$> evs) in
  callbacks effs
    = (if run_callback r then (λ e, (Some e, None)) <$> errors effs else []) ∧
  datas effs = stdout_chunks evs ∧
  metadatas effs = [].
Proof.
  induction evs as [|ev evs IH]; cbn zeta.
  - by destruct (run_callback r).
  - cbn zeta in IH. destruct IH as (Hc & Hd & Hm).
    rewrite fmap_cons. cbn [concat].
    rewrite callbacks_app, errors_app, datas_app, metadatas_app, Hc, Hd, Hm.
    destruct r as [src dst cb]. cbn [run_callback] in *.
    unfold write_on, finish, handleError, write_emit, getBody_toString.
    cbn [run_src run_dst run_callback].
    destruct ev as [e|chunk|[[|p|p]|] [|c stderr]];
      try destruct (fs_rename fs dst src); destruct cb; cbn; done.
Qed.

(** A read that runs. *)
Lemma read_run_running `{Through} split src a cb evs :
  flag dryRun (shuffle a cb).1 = false →
  read_run split src a cb evs =
    (Rt (convenience through_prop),
     (foldl (read_step split (shuffle a cb).2)
        ([], [Spawn (getReadArgs src (shuffle a cb).1) true]) evs).2).
Proof.
  unfold read_run, read. destruct (shuffle a cb) as [opts cb']. cbn [fst snd].
  by intros ->.
Qed.

Lemma read_on_observed cb output ev :
  let effs := read_on cb output ev in
  spawns effs = [] ∧ renames effs = [] ∧ unlinks effs = [] ∧ datas effs = [] ∧
  callbacks effs = (if cb then (λ e, (Some e, None)) <$> errors effs else []).
Proof.
  unfold read_on, read_emit, getBody_toString.
  destruct ev as [e|chunk|[[|p|p]|] [|c stderr]]; destruct cb; done.
Qed.

Lemma read_step_observed split cb chunks effs ev :
  let st := read_step split cb (chunks, effs) ev in
  st.1 = chunks ++ stdout_chunks [ev] ∧
  spawns st.2 = spawns effs ∧ renames st.2 = renames effs ∧
  unlinks st.2 = unlinks effs ∧ datas st.2 = datas effs ∧
  (callbacks effs = (if cb then (λ e, (Some e, None)) <$> errors effs else []) →
   callbacks st.2 = (if cb then (λ e, (Some e, None)) <$> errors st.2 else [])).
Proof.
  cbn zeta.
  assert (∀ out ev',
            let effs' := effs ++ read_on cb out ev' in
            spawns effs' = spawns effs ∧ renames effs' = renames effs ∧
            unlinks effs' = unlinks effs ∧ datas effs' = datas effs ∧
            (callbacks effs = (if cb then (λ e, (Some e, None)) <$> errors effs else []) →
             callbacks effs' = (if cb then (λ e, (Some e, None)) <$> errors effs' else [])))
    as Hother.
  { intros out ev'. cbn zeta.
    destruct (read_on_observed cb out ev') as (Hs & Hr & Hu & Hd & Hc).
    rewrite spawns_app, renames_app, unlinks_app, datas_app, callbacks_app, errors_app.
    rewrite Hs, Hr, Hu, Hd, Hc, !app_nil_r. repeat split.
    intros ->. destruct cb; [by rewrite fmap_app|done]. }
  destruct ev as [e|chunk|code stderr]; cbn [read_step fst snd stdout_chunks omap list_omap].
  - rewrite app_nil_r. split; [done|]. apply Hother.
  - by repeat split.
  - rewrite app_nil_r. split; [done|]. apply Hother.
Qed.

Lemma read_steps split cb evs : ∀ chunks effs,
  let st := foldl (read_step split cb) (chunks, effs) evs in
  st.1 = chunks ++ stdout_chunks evs ∧
  spawns st.2 = spawns effs ∧ renames st.2 = renames effs ∧
  unlinks st.2 = unlinks effs ∧ datas st.2 = datas effs ∧
  (callbacks effs = (if cb then (λ e, (Some e, None)) <$> errors effs else []) →
   callbacks st.2 = (if cb then (λ e, (Some e, None)) <$> errors st.2 else [])).
Proof.
  induction evs as [|ev evs IH]; intros chunks effs; cbn zeta.
  - cbn. by rewrite app_nil_r.
  - cbn [foldl].
    destruct (read_step_observed split cb chunks effs ev) as (S1 & S2 & S3 & S4 & S5 & S6).
    destruct (read_step split cb (chunks, effs) ev) as [chunks' effs'] eqn:Hst.
    cbn [fst snd] in *.
    destruct (IH chunks' effs') as (H1 & H2 & H3 & H4 & H5 & H6).
    rewrite H1, H2, H3, H4, H5, S2, S3, S4, S5. repeat split.
    + rewrite S1, <- app_assoc. f_equal.
      change (ev :: evs) with ([ev] ++ evs). unfold stdout_chunks. by rewrite omap_app.
    + intros Hc. by apply H6, S6.
Qed.

Lemma read_stdout split cb chunks : ∀ seen effs,
  foldl (read_step split cb) (seen, effs) (ProcStdout <$> chunks)
    = (seen ++ chunks, effs).
Proof.
  induction chunks as [|c chunks IH]; intros seen effs.
  - cbn. by rewrite app_nil_r.
  - rewrite fmap_cons. cbn [foldl read_step fst snd]. rewrite IH.
    by rewrite <- app_assoc.
Qed.

End Traces.

Section TraceProperties.
Context `{PathModule} `{Through}.

(** X9. Through any sequence of events of the child, a write that runs
    spawns once, renames only the temp path over the source, once per
    "close" with exit code 0, and removes only the temp path, at most once
    per "close". A "close" that is no success and comes with no
    standard-error text removes nothing: each one throws a [TypeError].
    When renames succeed, the removals are exactly the failed "close"
    events that come with standard-error text. Without a "close" event
    the file system is not touched: output and error events alone cause
    no rename and no removal. *)
Theorem write_file_system_discipline fs src (data : metadata) a cb evs :
  flag dryRun (shuffle a cb).1 = false →
  let dst := getTempPath src in
  let effs := (write_run fs src data a cb evs).2 in
  let closes := length (List.filter is_close evs) in
  let zeros := length (List.filter is_zero_close evs) in
  let silents := length (List.filter is_silent_close evs) in
  spawns effs = [getWriteArgs src dst data (shuffle a cb).1] ∧
  renames effs = replicate zeros (dst, src) ∧
  Forall (λ p, p = dst) (unlinks effs) ∧
  (length (unlinks effs) ≤ closes)%nat ∧
  type_errors effs = silents ∧
  (fs_rename fs dst src = None →
   (length (unlinks effs) + zeros + silents)%nat = closes) ∧
  (closes = 0%nat → renames effs = [] ∧ unlinks effs = []).
Proof.
  intros Hdry dst effs closes zeros silents. subst effs.
  rewrite Traces.write_run_running by done. cbn [snd].
  set (r := {| run_src := src; run_dst := getTempPath src;
               run_callback := (shuffle a cb).2 |}).
  destruct (Traces.handlers_fs fs r evs) as (Hs & Hr & Hall & Hle & Ht & Hok).
  cbn zeta in Hs, Hr, Hall, Hle, Ht, Hok. cbn [run_src run_dst r] in *.
  fold dst closes zeros silents in Hr, Hall, Hle, Ht, Hok.
  change (spawns (?x :: ?l)) with (getWriteArgs src dst data (shuffle a cb).1 :: spawns l).
  change (renames (Spawn ?x ?b :: ?l)) with (renames l).
  change (unlinks (Spawn ?x ?b :: ?l)) with (unlinks l).
  change (type_errors (Spawn ?x ?b :: ?l)) with (type_errors l).
  rewrite Hs. split; [done|]. split; [done|]. split; [done|]. split; [done|].
  split; [done|]. split; [done|]. intros Hnone. split.
  - assert (zeros ≤ closes)%nat as Hzc.
    { subst zeros closes. clear. induction evs as [|ev evs IH]; [done|].
      cbn [List.filter]. destruct ev as [| |[[| |]|] ?]; cbn; lia. }
    rewrite Hr. replace zeros with 0%nat by lia. done.
  - rewrite Hnone in Hle.
    destruct (unlinks (concat (write_on fs r <$> evs))); [done|cbn in Hle; lia].
Qed.

(** X10. The callback of a write is called once for every error surfaced
    on the stream, with that error and no data, in the same order, and
    never otherwise: no "metadata" event is ever emitted, and without a
    callback nothing is called. *)
Theorem write_callback_only_errors fs src (data : metadata) a cb evs :
  flag dryRun (shuffle a cb).1 = false →
  let effs := (write_run fs src data a cb evs).2 in
  callbacks effs
    = (if (shuffle a cb).2 then (λ e, (Some e, None)) <$> errors effs else []) ∧
  metadatas effs = [].
Proof.
  intros Hdry effs. subst effs. rewrite Traces.write_run_running by done. cbn [snd].
  set (r := {| run_src := src; run_dst := getTempPath src;
               run_callback := (shuffle a cb).2 |}).
  destruct (Traces.handlers_caller fs r evs) as (Hc & _ & Hm).
  cbn zeta in Hc, Hm. cbn [run_callback r] in Hc. split; [exact Hc|exact Hm].
Qed.

(** X11. Standard output of the child is passed on chunk by chunk: the
    "data" events of a write are the chunks received, in order, whatever
    else happens. *)
Theorem write_forwards_stdout fs src (data : metadata) a cb evs :
  flag dryRun (shuffle a cb).1 = false →
  datas (write_run fs src data a cb evs).2 = stdout_chunks evs.
Proof.
  intros Hdry. rewrite Traces.write_run_running by done. cbn [snd].
  set (r := {| run_src := src; run_dst := getTempPath src;
               run_callback := (shuffle a cb).2 |}).
  by destruct (Traces.handlers_caller fs r evs) as (_ & Hd & _).
Qed.

(** X12. A read that runs spawns once, with the read arguments, and never
    renames or removes a file or emits "data"; its callback is called
    once for every error surfaced, with that error, and never with the
    decoded metadata. *)
Theorem read_touches_nothing split src a cb evs :
  flag dryRun (shuffle a cb).1 = false →
  let effs := (read_run split src a cb evs).2 in
  spawns effs = [getReadArgs src (shuffle a cb).1] ∧
  renames effs = [] ∧ unlinks effs = [] ∧ datas effs = [] ∧
  callbacks effs
    = (if (shuffle a cb).2 then (λ e, (Some e, None)) <$> errors effs else []).
Proof.
  intros Hdry effs. subst effs. rewrite Traces.read_run_running by done. cbn [snd].
  destruct (Traces.read_steps split (shuffle a cb).2 evs []
              [Spawn (getReadArgs src (shuffle a cb).1) true])
    as (_ & Hs & Hr & Hu & Hd & Hc).
  cbn zeta in *. rewrite Hs, Hr, Hu, Hd. repeat split.
  apply Hc. by destruct (shuffle a cb).2.
Qed.

(** X13. The two ends of a read whose decoder raised no exception. After
    the chunks of standard output, a "close" with exit code 0 emits one
    "metadata" event that carries what the decoder made of the lines cut
    out of all the chunks, and calls no callback; any other "close" that
    comes with standard-error text emits that text as the error, handed
    to the callback or thrown when there is none; with no standard-error
    text it throws a [TypeError] and emits nothing. In every case the
    value returned was built from the stream object before any output
    arrived. *)
Theorem read_outcome split src a cb (chunks : list string) code stderr :
  flag dryRun (shuffle a cb).1 = false →
  ini_thrown (parseini_feed ini_init (split chunks)) = false →
  read_run split src a cb ((ProcStdout <$> chunks) ++ [ProcClose code stderr]) =
    (Rt (convenience through_prop),
     Spawn (getReadArgs src (shuffle a cb).1) true ::
     match code, stderr with
     | Some 0, _ => [Emit (EvMetadata (parseini (split chunks)))]
     | _, EmptyString => [Uncaught TypeError]
     | _, _ => Emit (EvError (StderrError stderr)) ::
               (if (shuffle a cb).2 then [Callback (Some (StderrError stderr)) None]
                else [Uncaught (Unhandled (StderrError stderr))])
     end).
Proof.
  intros Hdry _. rewrite Traces.read_run_running by done. f_equal.
  rewrite foldl_app, Traces.read_stdout. cbn [foldl read_step fst snd app].
  unfold read_on, read_emit, getBody_toString.
  destruct code as [[|p|p]|]; destruct stderr; destruct (shuffle a cb).2; reflexivity.
Qed.

End TraceProperties.

Lemma write_file_system_discipline_witness :
  let effs :=
    (@write_run plain_path fresh_through fs_ok "song.mp3" [("title", "Test")]
       (with_options no_options) true
       [ProcStdout "frame=1"; ProcError "EPIPE"; ProcStdout "frame=2"]).2 in
  renames effs = [] ∧ unlinks effs = [].
Proof.
  apply (@write_file_system_discipline plain_path fresh_through fs_ok "song.mp3"
           [("title", "Test")] (with_options no_options) true
           [ProcStdout "frame=1"; ProcError "EPIPE"; ProcStdout "frame=2"] eq_refl).
  reflexivity.
Defined.

Lemma write_callback_only_errors_witness :
  callbacks
    (@write_run plain_path fresh_through fs_ok "song.mp3" [("title", "Test")]
       (with_options no_options) true
       [ProcStdout "x"; ProcClose (Some 1) "Invalid data"]).2
    = [(Some (StderrError "Invalid data"), None)].
Proof.
  destruct (@write_callback_only_errors plain_path fresh_through fs_ok "song.mp3"
              [("title", "Test")] (with_options no_options) true
              [ProcStdout "x"; ProcClose (Some 1) "Invalid data"] eq_refl)
    as [Hc _].
  rewrite Hc. reflexivity.
Defined.

Lemma write_forwards_stdout_witness :
  datas
    (@write_run plain_path fresh_through fs_ok "song.mp3" [("title", "Test")]
       (with_options no_options) false
       [ProcStdout "a"; ProcError "EPIPE"; ProcStdout "b"; ProcClose (Some 0) ""]).2
    = ["a"; "b"].
Proof.
  rewrite (@write_forwards_stdout plain_path fresh_through fs_ok "song.mp3"
             [("title", "Test")] (with_options no_options) false _ eq_refl).
  reflexivity.
Defined.

Lemma read_touches_nothing_witness :
  let effs :=
    (@read_run fresh_through (λ chunks, chunks) "song.mp3" (with_options no_options)
       true [ProcStdout "title=Test"; ProcClose (Some 0) ""]).2 in
  spawns effs = [["-i"; "song.mp3"; "-f"; "ffmetadata"; "pipe:1"]] ∧
  callbacks effs = [].
Proof.
  intros effs.
  destruct (@read_touches_nothing fresh_through (λ chunks, chunks) "song.mp3"
              (with_options no_options) true
              [ProcStdout "title=Test"; ProcClose (Some 0) ""] eq_refl)
    as (Hs & _ & _ & _ & Hc).
  subst effs. split; [exact Hs|]. rewrite Hc. reflexivity.
Defined.

Lemma read_outcome_witness :
  metadatas
    (@read_run fresh_through (λ chunks, chunks) "song.mp3" (with_options no_options)
       true [ProcStdout ";FFMETADATA1"; ProcStdout "title=Test"; ProcClose (Some 0) ""]).2
    = [{[ "title" := "Test" ]}].
Proof.
  pose proof (@read_outcome fresh_through (λ chunks, chunks) "song.mp3"
                (with_options no_options) true [";FFMETADATA1"; "title=Test"]
                (Some 0) "" eq_refl eq_refl) as Hrun.
  cbn [fmap list_fmap app] in Hrun. rewrite Hrun. reflexivity.
Defined.

(** ** The executable *)

(** X14. The command that is spawned is never the empty string, and only
    the last call of [setFfmpegPath] counts: a non-empty path is taken as
    it is, an empty one falls back to [ffmpeg], and the environment
    variable read at load time is forgotten after the first call. *)
Theorem ffmpeg_command (env : option string) (paths : list string) :
  JsString.Boolean (ffmpeg_after env paths) = true ∧
  (∀ p, ffmpeg_after env (paths ++ [p]) = if JsString.Boolean p then p else "ffmpeg") ∧
  (paths ≠ [] → ∀ env', ffmpeg_after env' paths = ffmpeg_after env paths).
Proof.
  assert (∀ p, ffmpeg_after env (paths ++ [p]) = if JsString.Boolean p then p else "ffmpeg")
    as Hlast by (intros p; unfold ffmpeg_after; by rewrite foldl_app).
  split; [|split; [exact Hlast|]].
  - destruct paths as [|p paths _] using rev_ind.
    + unfold ffmpeg_after, ffmpeg_default. cbn.
      destruct env as [e|]; cbn; [|done]. by destruct (JsString.Boolean e) eqn:E.
    + unfold ffmpeg_after. rewrite foldl_app. cbn. unfold setFfmpegPath.
      by destruct (JsString.Boolean p) eqn:E.
  - intros Hne env'. destruct paths as [|p paths _] using rev_ind; [done|].
    unfold ffmpeg_after. by rewrite !foldl_app.
Qed.

Lemma ffmpeg_command_witness :
  ffmpeg_after (Some "/opt/ffmpeg") ["/usr/bin/ffmpeg"; ""] = "ffmpeg" ∧
  ffmpeg_after (Some "/opt/ffmpeg") [""; "avconv"] = ffmpeg_after None [""; "avconv"].
Proof.
  split.
  - apply (ffmpeg_command (Some "/opt/ffmpeg") ["/usr/bin/ffmpeg"] ).
  - destruct (ffmpeg_command None [""; "avconv"]) as (_ & _ & Henv).
    apply Henv. discriminate.
Defined.
